(** * CodeGrinder: the daycare registry and the grade command

    A shallow embedding of the TA-side daycare registry of CodeGrinder
    (the [daycares] type with [Expire], [Insert] and [Assign], and
    [DaycareRegistration.ComputeSignature]) and of the tail of the
    [grind grade] command, together with the properties the
    specification states about them.

    Conventions.
    - Go's [int] and [time.Duration] are 64-bit two's-complement integers;
      they are represented by [Z] with the wrap-around written out.
    - A [time.Time] is an instant, counted in nanoseconds since the Unix
      epoch.  Every call of [time.Now] is an explicit argument.
    - A Go [map] is a [gmap]; a [range] loop over a map receives the order
      in which the runtime happens to enumerate the entries as a list that
      is a permutation of the map's contents.
    - The mutex of [daycares] is not modelled: every method runs alone. *)

From Stdlib Require Import ZArith Lia Bool.
From Stdlib Require Import Strings.String Strings.Ascii.
From Stdlib Require Import Structures.OrdersEx.
From Stdlib Require Import Floats.SpecFloat.
From stdpp Require Import base numbers option list sorting gmap strings pretty.

Local Open Scope Z_scope.

(** * Part I: the program *)

(** ** Go's machine integers *)

Module goint.

(** [int] on the 64-bit platforms the server runs on, and [int64]. *)
Definition min_int : Z := - 2 ^ 63.
Definition max_int : Z := 2 ^ 63 - 1.

Definition in_range (x : Z) : Prop := min_int <= x <= max_int.

(** Two's-complement wrap-around of a mathematical integer. *)
Definition wrap (x : Z) : Z := (x + 2 ^ 63) mod 2 ^ 64 - 2 ^ 63.

Definition add (a b : Z) : Z := wrap (a + b).
Definition neg (a : Z) : Z := wrap (- a).

End goint.

(** ** Go's string order and package [sort] *)

(** Go compares strings byte by byte; so does [String_as_OT.compare]. *)
Definition string_leb (a b : string) : bool :=
  match String_as_OT.compare a b with
  | Gt => false
  | _ => true
  end.

Definition string_le (a b : string) : Prop := string_leb a b = true.

#[global] Instance string_le_dec a b : Decision (string_le a b) :=
  bool_eq_dec (string_leb a b) true.

Module sort.

(** [sort.Strings] sorts a slice in increasing order, in place.  The
    order is total and antisymmetric, so the outcome is the one sorted
    rearrangement of the slice whatever algorithm computes it. *)
Definition Strings (a : list string) : list string :=
  merge_sort string_le a.

(** [sort.Search]: the loop
    [i, j := 0, n; for i < j { h := int(uint(i+j) >> 1); if !f(h) { i = h+1 } else { j = h } }; return i].
    Every round shrinks [j - i], so [n] rounds are enough; [budget]
    counts them down. *)
Fixpoint Search_loop (budget : nat) (f : nat -> bool) (i j : nat) : nat :=
  match budget with
  | O => i
  | S budget' =>
      if (i <? j)%nat then
        let h := ((i + j) / 2)%nat in
        if negb (f h) then Search_loop budget' f (h + 1)%nat j
        else Search_loop budget' f i h
      else i
  end.

Definition Search (n : nat) (f : nat -> bool) : nat :=
  Search_loop n f 0%nat n.

(** [sort.SearchStrings(a, x)] is
    [Search(len(a), func(i int) bool { return a[i] >= x })]. *)
Definition SearchStrings (a : list string) (x : string) : nat :=
  Search (length a)
    (fun i => match a !! i with
              | Some s => string_leb x s
              | None => true
              end).

End sort.

(** ** Package [strconv] *)

Module strconv.

(** [strconv.Itoa]: decimal digits, with a leading minus sign. *)
Definition Itoa (i : Z) : string := pretty i.

(** The errors of [strconv]'s parsers. *)
Inductive NumError : Type := ErrSyntax | ErrRange.

Definition digit_of (c : ascii) : option Z :=
  let n := Z.of_N (N_of_ascii c) in
  if (48 <=? n) && (n <=? 57) then Some (n - 48) else None.

(** The loop of [strconv.ParseUint(s, 10, 64)] from the digits read so
    far: a byte that is no digit is a syntax error, and a number that
    leaves 64 bits is a range error, whichever comes first. *)
Fixpoint ParseUint_loop (n : Z) (s : string) : Z + NumError :=
  match s with
  | EmptyString => inl n
  | String c rest =>
      match digit_of c with
      | None => inr ErrSyntax
      | Some d =>
          if (2 ^ 64 - 1) / 10 + 1 <=? n then inr ErrRange
          else if 2 ^ 64 - 1 <? n * 10 + d then inr ErrRange
          else ParseUint_loop (n * 10 + d) rest
      end
  end.

Definition ParseUint (s : string) : Z + NumError :=
  match s with
  | EmptyString => inr ErrSyntax
  | _ => ParseUint_loop 0 s
  end.

(** [strconv.ParseInt(s, 10, 64)]: an optional sign, then the digits; the
    value and the error, as Go returns both. *)
Definition ParseInt (s : string) : Z * option NumError :=
  match s with
  | EmptyString => (0, Some ErrSyntax)
  | String c rest =>
      let neg := Ascii.eqb c "-" in
      let digits := if Ascii.eqb c "+" || neg then rest else s in
      match ParseUint digits with
      | inr ErrSyntax => (0, Some ErrSyntax)
      | inr ErrRange => (if neg then - 2 ^ 63 else 2 ^ 63 - 1, Some ErrRange)
      | inl un =>
          if negb neg && (2 ^ 63 <=? un) then (2 ^ 63 - 1, Some ErrRange)
          else if neg && (2 ^ 63 <? un) then (- 2 ^ 63, Some ErrRange)
          else (if neg then - un else un, None)
      end
  end.

End strconv.

(** ** Package [time] *)

Module time.

(** An instant, in nanoseconds since the Unix epoch.  Go's [Time] spans
    far more than 64 bits of nanoseconds, so instants are unbounded. *)
Definition Time : Type := Z.

(** [type Duration int64], a count of nanoseconds. *)
Definition Duration : Type := Z.

Definition Nanosecond : Duration := 1.
Definition Second : Duration := 1000000000.
Definition Minute : Duration := 60 * Second.

Definition minDuration : Duration := goint.min_int.
Definition maxDuration : Duration := goint.max_int.

Definition Add (t : Time) (d : Duration) : Time := t + d.

(** [t.Sub(u)]: the difference in [int64] arithmetic, replaced by the
    smallest or largest duration when it does not fit. *)
Definition Sub (t u : Time) : Duration :=
  let d := goint.wrap (t - u) in
  if Add u d =? t then d
  else if t <? u then minDuration
  else maxDuration.

(** [time.Since(t)] is [time.Now().Sub(t)]. *)
Definition Since (now t : Time) : Duration := Sub now t.

(** [t.Round(d)]: the nearest multiple of [d], halfway values rounding
    up.  The zero [Time] lies a whole number of seconds before the Unix
    epoch, so for the only [d] used here, one second, the remainder of
    [t] since the zero time is the remainder since the epoch. *)
Definition Round (t : Time) (d : Duration) : Time :=
  if d <=? 0 then t
  else
    let r := t mod d in
    if r + r <? d then Add t (- r) else Add t (d - r).

(** [appendInt]: decimal digits padded with zeros to [width], after a
    minus sign for a negative number. *)
Definition zero_pad (width : nat) (s : string) : string :=
  string_of_list_ascii (replicate (width - String.length s) "0"%char) +:+ s.

Definition appendInt (x : Z) (width : nat) : string :=
  if x <? 0 then "-" +:+ zero_pad width (pretty (- x))
  else zero_pad width (pretty x).

(** The civil date of a day number counted from 1970-01-01 in the
    proleptic Gregorian calendar. *)
Definition civil (days : Z) : Z * Z * Z :=
  let z := days + 719468 in
  let era := z / 146097 in
  let doe := z mod 146097 in
  let yoe := (doe - doe / 1460 + doe / 36524 - doe / 146096) / 365 in
  let doy := doe - (365 * yoe + yoe / 4 - yoe / 100) in
  let mp := (5 * doy + 2) / 153 in
  let d := doy - (153 * mp + 2) / 5 + 1 in
  let m := if mp <? 10 then mp + 3 else mp - 9 in
  let y := yoe + era * 400 + (if m <=? 2 then 1 else 0) in
  (y, m, d).

(** [t.UTC().Format(time.RFC3339)], the layout
    [2006-01-02T15:04:05Z07:00] in the zone UTC. *)
Definition Format_RFC3339_UTC (t : Time) : string :=
  let sec := t / Second in
  let '(y, m, d) := civil (sec / 86400) in
  let s := sec mod 86400 in
  appendInt y 4 +:+ "-" +:+ appendInt m 2 +:+ "-" +:+ appendInt d 2 +:+ "T"
  +:+ appendInt (s / 3600) 2 +:+ ":" +:+ appendInt (s / 60 mod 60) 2 +:+ ":"
  +:+ appendInt (s mod 60) 2 +:+ "Z".

End time.

(** ** Bytes *)

(** A Go [string] and a [[]byte] hold the same bytes; a byte is a [Z]
    below 256. *)
Definition bytes_of_string (s : string) : list Z :=
  (fun c => Z.of_N (N_of_ascii c)) <$> list_ascii_of_string s.

Definition string_of_bytes (b : list Z) : string :=
  string_of_list_ascii ((fun x => ascii_of_N (Z.to_N x)) <$> b).

(** ** Package [crypto/sha256] (FIPS 180-4) *)

Module sha256.

Definition add32 (a b : Z) : Z := (a + b) mod 2 ^ 32.
Definition not32 (a : Z) : Z := Z.lxor a 0xffffffff.
Definition rotr (n x : Z) : Z :=
  Z.lor (Z.shiftr x n) (Z.land (Z.shiftl x (32 - n)) 0xffffffff).

Definition Ch (x y z : Z) : Z := Z.lxor (Z.land x y) (Z.land (not32 x) z).
Definition Maj (x y z : Z) : Z :=
  Z.lxor (Z.lxor (Z.land x y) (Z.land x z)) (Z.land y z).
Definition bsig0 (x : Z) : Z := Z.lxor (Z.lxor (rotr 2 x) (rotr 13 x)) (rotr 22 x).
Definition bsig1 (x : Z) : Z := Z.lxor (Z.lxor (rotr 6 x) (rotr 11 x)) (rotr 25 x).
Definition ssig0 (x : Z) : Z := Z.lxor (Z.lxor (rotr 7 x) (rotr 18 x)) (Z.shiftr x 3).
Definition ssig1 (x : Z) : Z := Z.lxor (Z.lxor (rotr 17 x) (rotr 19 x)) (Z.shiftr x 10).

(** The constants are defined from the primes: the first 32 bits of the
    fractional parts of the cube roots of the first 64 primes, and of the
    square roots of the first 8. *)
Definition is_prime (n : Z) : bool :=
  forallb (fun d => negb (n mod d =? 0)) (seqZ 2 (n - 2)).

Definition primes : list Z := List.filter is_prime (seqZ 2 310).

(** The integer part of a cube root, found bit by bit from the top. *)
Fixpoint cube_root_bits (bits : nat) (n r : Z) : Z :=
  match bits with
  | O => r
  | S bits' =>
      let c := r + 2 ^ Z.of_nat bits' in
      cube_root_bits bits' n (if c * c * c <=? n then c else r)
  end.

Definition K : list Z :=
  Eval vm_compute in
    (fun p => cube_root_bits 44 (p * 2 ^ 96) 0 mod 2 ^ 32) <$> primes.

Definition H0 : list Z :=
  Eval vm_compute in
    (fun p => Z.sqrt (p * 2 ^ 64) mod 2 ^ 32) <$> take 8 primes.

Definition BlockSize : nat := 64.

(** Big-endian encoding of [x] on [n] bytes. *)
Fixpoint be_bytes (n : nat) (x : Z) : list Z :=
  match n with
  | O => []
  | S n' => Z.shiftr x (8 * Z.of_nat n') mod 256 :: be_bytes n' x
  end.

Definition be_word (b : list Z) : Z :=
  foldl (fun acc x => acc * 256 + x) 0 b.

(** The message followed by the byte 0x80, zero bytes up to 56 modulo 64,
    and the length in bits on eight bytes. *)
Definition pad (msg : list Z) : list Z :=
  let len := Z.of_nat (length msg) in
  let zeros := Z.to_nat ((55 - len) mod 64) in
  msg ++ [0x80] ++ replicate zeros 0 ++ be_bytes 8 (8 * len).

Fixpoint chunks {A} (size count : nat) (l : list A) : list (list A) :=
  match count with
  | O => []
  | S count' => take size l :: chunks size count' (drop size l)
  end.

(** The message schedule, most recent word first. *)
Fixpoint extend (rounds : nat) (w : list Z) : list Z :=
  match rounds with
  | O => w
  | S rounds' =>
      let at_ i := w !!! i in
      extend rounds'
        (add32 (add32 (ssig1 (at_ 1%nat)) (at_ 6%nat))
               (add32 (ssig0 (at_ 14%nat)) (at_ 15%nat)) :: w)
  end.

Definition schedule (block : list Z) : list Z :=
  reverse (extend 48 (reverse (be_word <$> chunks 4 16 block))).

Definition round (s : list Z) (kw : Z * Z) : list Z :=
  match s with
  | [a; b; c; d; e; f; g; h] =>
      let t1 := add32 (add32 (add32 h (bsig1 e)) (add32 (Ch e f g) kw.1)) kw.2 in
      let t2 := add32 (bsig0 a) (Maj a b c) in
      [add32 t1 t2; a; b; c; add32 d t1; e; f; g]
  | _ => s
  end.

Definition compress (h : list Z) (block : list Z) : list Z :=
  zip_with add32 h (foldl round h (zip K (schedule block))).

Definition Sum256 (msg : list Z) : list Z :=
  let p := pad msg in
  let blocks := chunks BlockSize (length p / BlockSize) p in
  foldl compress H0 blocks ≫= be_bytes 4.

End sha256.

(** ** Package [crypto/hmac], instantiated with SHA-256 (RFC 2104) *)

Module hmac.

Definition key_block (key : list Z) : list Z :=
  let k := if (sha256.BlockSize <? length key)%nat then sha256.Sum256 key else key in
  k ++ replicate (sha256.BlockSize - length k) 0.

(** [mac := hmac.New(sha256.New, key); mac.Write(msg); mac.Sum(nil)]. *)
Definition Sum (key msg : list Z) : list Z :=
  let k := key_block key in
  let ipad := Z.lxor 0x36 <$> k in
  let opad := Z.lxor 0x5c <$> k in
  sha256.Sum256 (opad ++ sha256.Sum256 (ipad ++ msg)).

End hmac.

(** ** Package [encoding/base64] *)

Module base64.

Definition encodeStd : string :=
  "ABCDEFGHIJKLMNOPQRSTUVWXYZabcdefghijklmnopqrstuvwxyz0123456789+/".

Definition digit (x : Z) : ascii :=
  default "="%char (String.get (Z.to_nat x) encodeStd).

(** [base64.StdEncoding.EncodeToString]: three bytes make four digits;
    a last group of one or two bytes is padded with [=]. *)
Fixpoint encode_groups (b : list Z) : list ascii :=
  match b with
  | x :: y :: z :: rest =>
      let v := x * 65536 + y * 256 + z in
      digit (v / 262144) :: digit (v / 4096 mod 64) :: digit (v / 64 mod 64)
        :: digit (v mod 64) :: encode_groups rest
  | [x; y] =>
      let v := x * 65536 + y * 256 in
      [digit (v / 262144); digit (v / 4096 mod 64); digit (v / 64 mod 64); "="%char]
  | [x] =>
      let v := x * 65536 in
      [digit (v / 262144); digit (v / 4096 mod 64); "="%char; "="%char]
  | [] => []
  end.

Definition EncodeToString (b : list Z) : string :=
  string_of_list_ascii (encode_groups b).

(** The decoding table: the place of a byte in the alphabet. *)
Fixpoint index_of (c : ascii) (s : string) (i : Z) : option Z :=
  match s with
  | EmptyString => None
  | String c' s' => if Ascii.eqb c c' then Some i else index_of c s' (i + 1)
  end.

Definition decodeMap (c : ascii) : option Z := index_of c encodeStd 0.

Definition is_newline (c : ascii) : bool :=
  Ascii.eqb c "010" || Ascii.eqb c "013".

Fixpoint skip_newlines (src : list ascii) : list ascii :=
  match src with
  | c :: rest => if is_newline c then skip_newlines rest else src
  | [] => []
  end.

(** The bytes of a quantum of [length q] digits: one byte less than it
    has digits. *)
Definition quantum_bytes (q : list Z) : list Z :=
  let dbuf (j : nat) := default 0 (q !! j) in
  let val := dbuf 0%nat * 262144 + dbuf 1%nat * 4096
             + dbuf 2%nat * 64 + dbuf 3%nat in
  take (length q - 1) [val / 65536 mod 256; val / 256 mod 256; val mod 256].

(** [base64.StdEncoding.DecodeString], [None] when it returns an error.
    [q] holds the digits of the quantum being read.  Line ends are
    skipped; padding is accepted only where a quantum of two or three
    digits ends the input. *)
Fixpoint decode (src : list ascii) (q : list Z) : option (list Z) :=
  match src with
  | [] => match q with [] => Some [] | _ => None end
  | c :: rest =>
      match decodeMap c with
      | Some v =>
          if (length q =? 3)%nat
          then (fun tail => quantum_bytes (q ++ [v]) ++ tail) <$> decode rest []
          else decode rest (q ++ [v])
      | None =>
          if is_newline c then decode rest q
          else if Ascii.eqb c "=" then
            match q with
            | [_; _] =>
                match skip_newlines rest with
                | c2 :: rest2 =>
                    if Ascii.eqb c2 "=" then
                      match skip_newlines rest2 with
                      | [] => Some (quantum_bytes q)
                      | _ => None
                      end
                    else None
                | [] => None
                end
            | [_; _; _] =>
                match skip_newlines rest with
                | [] => Some (quantum_bytes q)
                | _ => None
                end
            | _ => None
            end
          else None
      end
  end.

Definition DecodeString (s : string) : option (list Z) :=
  decode (list_ascii_of_string s) [].

End base64.

(** ** Package [net/url] *)

Module url.

(** [url.Values] is [map[string][]string]. *)
Abbreviation Values := (gmap string (list string)).

(** [v.Add(key, value)] appends [value] to the values of [key]. *)
Definition Add (key value : string) (v : Values) : Values :=
  <[key := default [] (v !! key) ++ [value]]> v.

Definition hex_digit (x : Z) : ascii :=
  default "0"%char (String.get (Z.to_nat x) "0123456789ABCDEF").

(** Letters, digits and [-_.~] are kept by [QueryEscape]. *)
Definition unreserved (c : Z) : bool :=
  (65 <=? c) && (c <=? 90) || (97 <=? c) && (c <=? 122)
  || (48 <=? c) && (c <=? 57)
  || (c =? 45) || (c =? 95) || (c =? 46) || (c =? 126).

Definition escape_byte (c : Z) : list ascii :=
  if unreserved c then [ascii_of_N (Z.to_N c)]
  else if c =? 32 then ["+"%char]
  else ["%"%char; hex_digit (c / 16); hex_digit (c mod 16)].

(** [url.QueryEscape]. *)
Definition QueryEscape (s : string) : string :=
  string_of_list_ascii (bytes_of_string s ≫= escape_byte).

End url.

(** ** Package [math/rand] *)

(** What a call that may panic produces. *)
Inductive outcome (A : Type) : Type :=
  | Return (a : A)
  | Panic (msg : string).
Arguments Return {A} a.
Arguments Panic {A} msg.

Module rand.

(** [rand.Intn(n)] panics unless [0 < n]; otherwise it returns the next
    number of the generator, which lies in [[0, n)].  [draw] is that
    number. *)
Definition Intn (draw n : Z) : outcome Z :=
  if n <=? 0 then Panic "invalid argument to Intn" else Return draw.

End rand.

(** ** Package [types]: the running version *)

Module types.

Record VersionT : Type := {
  Version : string;
  GrindVersionRequired : string;
  GrindVersionRecommended : string;
}.

Definition CurrentVersion : VersionT :=
  {| Version := "1.9.6";
     GrindVersionRequired := "1.9.6";
     GrindVersionRecommended := "1.9.6" |}.

End types.

(** ** The server: configuration and daycare registrations *)

(** The fields of [Config] that the daycare role and the registry read. *)
Module Config.

Record t : Type := {
  Hostname : string;
  DaycareSecret : string;
  Capacity : Z;
  ProblemTypes : list string;
}.

End Config.

Definition daycareRegistrationInterval : time.Duration := 10 * time.Second.

Record DaycareRegistration : Type := {
  Hostname : string;
  ProblemTypes : list string;
  Capacity : Z;
  Time : time.Time;
  Version : string;
  Signature : string;
}.

#[global] Instance DaycareRegistration_eq_dec : EqDecision DaycareRegistration.
Proof. solve_decision. Defined.

Definition set_ProblemTypes (pts : list string) (reg : DaycareRegistration) :=
  {| Hostname := Hostname reg; ProblemTypes := pts; Capacity := Capacity reg;
     Time := Time reg; Version := Version reg; Signature := Signature reg |}.

Definition set_Signature (sig : string) (reg : DaycareRegistration) :=
  {| Hostname := Hostname reg; ProblemTypes := ProblemTypes reg;
     Capacity := Capacity reg; Time := Time reg; Version := Version reg;
     Signature := sig |}.

(** Modelled from the spec: [encode], the function of package [main] that
    turns the [url.Values] into the bytes that are signed, and that is
    defined in another file of the server.  The spec has the canonical form
    "URL-encoded with [=]/[&] separators, keys sorted lexicographically". *)
Definition encode (v : url.Values) : list Z :=
  let keys := sort.Strings (map_to_list v).*1 in
  let pair_of k x := url.QueryEscape k +:+ "=" +:+ url.QueryEscape x in
  bytes_of_string
    (String.concat "&" (keys ≫= fun k => pair_of k <$> default [] (v !! k))).

(** [for n, elt := range reg.ProblemTypes { v.Add(fmt.Sprintf("problemType-%d", n), elt) }] *)
Definition add_problemTypes (pts : list string) (v : url.Values) : url.Values :=
  foldl (fun v ne => url.Add ("problemType-" +:+ strconv.Itoa (Z.of_nat ne.1)) ne.2 v)
    v (imap pair pts).

(** The values that [ComputeSignature] gathers, from a receiver whose
    problem types are already sorted. *)
Definition signed_values (reg : DaycareRegistration) : url.Values :=
  let v := url.Add "hostname" (Hostname reg) ∅ in
  let v := add_problemTypes (ProblemTypes reg) v in
  let v := url.Add "capacity" (strconv.Itoa (Capacity reg)) v in
  let v := url.Add "time"
             (time.Format_RFC3339_UTC (time.Round (Time reg) time.Second)) v in
  url.Add "version" (Version reg) v.

(** [reg.ComputeSignature(secret)] has a pointer receiver: it returns the
    signature together with the receiver as the call leaves it. *)
Definition ComputeSignature (secret : string) (reg : DaycareRegistration)
  : string * DaycareRegistration :=
  let reg := set_ProblemTypes (sort.Strings (ProblemTypes reg)) reg in
  let v := signed_values reg in
  let sum := hmac.Sum (bytes_of_string secret) (encode v) in
  let sig := base64.EncodeToString sum in
  (sig, reg).

(** [main] ends the program unless the configuration of the daycare role
    names a problem type and has a capacity greater than zero. *)
Definition daycare_config_ok (cfg : Config.t) : Prop :=
  length (Config.ProblemTypes cfg) ≠ 0%nat ∧ 0 < Config.Capacity cfg.

(** The registration that the daycare role of [main] builds and signs on
    every round of its registration loop. *)
Definition new_registration (cfg : Config.t) (now : time.Time)
  : DaycareRegistration :=
  let reg := {| Hostname := Config.Hostname cfg;
                ProblemTypes := Config.ProblemTypes cfg;
                Capacity := Config.Capacity cfg;
                Time := now;
                Version := types.Version types.CurrentVersion;
                Signature := "" |} in
  let '(sig, reg) := ComputeSignature (Config.DaycareSecret cfg) reg in
  set_Signature sig reg.

(** ** The registry *)

(** The state of a [daycares] is its field [daycares], a
    [map[string]*DaycareRegistration].  Every pointer stored in it comes
    from a request of its own, so no two entries share a registration and
    the map holds the values. *)
Abbreviation daycares := (gmap string DaycareRegistration).

(** The order in which a [range] loop meets the entries of a map. *)
Abbreviation iteration := (list (string * DaycareRegistration)).

Definition expired (now : time.Time) (elt : DaycareRegistration) : bool :=
  bool_decide (time.Since now (Time elt) > 2 * daycareRegistrationInterval).

(** [Expire]: the loop deletes only the entry it is looking at, so every
    entry of the map is looked at once.  The loop reads the clock for each
    entry; the readings of one call are taken to be one instant, [now]. *)
Definition Expire (now : time.Time) (order : iteration) (m : daycares)
  : daycares :=
  foldl (fun m he => if expired now he.2 then delete he.1 m else m) m order.

(** [Insert] returns its error, the registration behind the pointer as the
    call leaves it, and the map.  [now] is the clock read by
    [time.Since], [now'] the clock read by the later [time.Now]. *)
Definition Insert (secret : string) (now now' : time.Time)
    (reg : DaycareRegistration) (m : daycares)
  : option string * DaycareRegistration * daycares :=
  let '(sig, reg) := ComputeSignature secret reg in
  if negb (String.eqb sig (Signature reg)) then
    (Some ("signature mismatch: computed " +:+ sig +:+ " but found "
           +:+ Signature reg), reg, m)
  else if negb (String.eqb (Version reg) (types.Version types.CurrentVersion)) then
    (Some ("version mismatch: daycare is " +:+ Version reg +:+ ", but ta is "
           +:+ types.Version types.CurrentVersion), reg, m)
  else
    let drift := time.Since now (Time reg) in
    let drift := if drift <? 0 then goint.neg drift else drift in
    if time.Minute <? drift then
      (Some "time drift is too great", reg, m)
    else
      let reg := {| Hostname := Hostname reg;
                    ProblemTypes := sort.Strings (ProblemTypes reg);
                    Capacity := Capacity reg;
                    Time := now';
                    Version := "";
                    Signature := "" |} in
      (None, reg, <[Hostname reg := reg]> m).

(** [n := sort.SearchStrings(elt.ProblemTypes, problemType);
     n < len(elt.ProblemTypes) && elt.ProblemTypes[n] == problemType] *)
Definition eligible (problemType : string) (elt : DaycareRegistration) : bool :=
  let n := sort.SearchStrings (ProblemTypes elt) problemType in
  (n <? length (ProblemTypes elt))%nat
  && bool_decide (ProblemTypes elt !! n = Some problemType).

(** The first loop of [Assign]. *)
Definition totalWeight (problemType : string) (order : iteration) : Z :=
  foldl (fun total he =>
           if eligible problemType he.2 then goint.add total (Capacity he.2)
           else total)
    0 order.

(** The second loop of [Assign], from the entry it is about to look at. *)
Fixpoint walk (problemType : string) (point skippedWeight : Z)
    (order : iteration) : option string :=
  match order with
  | [] => None
  | (host, elt) :: rest =>
      let skippedWeight :=
        if eligible problemType elt then goint.add skippedWeight (Capacity elt)
        else skippedWeight in
      if point <? skippedWeight then Some host
      else walk problemType point skippedWeight rest
  end.

(** [Assign] returns Go's pair of a host name and an error.  [order1] and
    [order2] are the orders of its two loops and [draw] is the number the
    random generator hands out. *)
Definition Assign (order1 order2 : iteration) (draw : Z) (problemType : string)
  : outcome (string * option string) :=
  let total := totalWeight problemType order1 in
  if total =? 0 then Return ("", Some "no eligible daycare found")
  else
    match rand.Intn draw total with
    | Panic msg => Panic msg
    | Return point =>
        match walk problemType point 0 order2 with
        | Some host => Return (host, None)
        | None =>
            Return ("", Some "failed to find daycare, please report this error")
        end
    end.

(** The handlers of [/v2/daycare_registrations]: both expire the registry
    before they read or extend it. *)
Definition GetDaycareRegistrations (now : time.Time) (order : iteration)
    (m : daycares) : daycares :=
  Expire now order m.

Definition PostDaycareRegistrations (secret : string) (now : time.Time)
    (order : iteration) (now1 now2 : time.Time) (reg : DaycareRegistration)
    (m : daycares) : option string * daycares :=
  let m := Expire now order m in
  let '(err, _, m) := Insert secret now1 now2 reg m in
  (err, m).

(** ** The [grind grade] command *)

Module strings.

(** The number of pieces [strings.Split(s, sep)] cuts [s] into, for a
    separator of one byte: one more than the occurrences of it. *)
Definition Split_len (s : string) (sep : ascii) : nat :=
  S (length (filter (fun c => c = sep) (list_ascii_of_string s))).

Definition Join (elems : list string) (sep : string) : string :=
  String.concat sep elems.

End strings.

(** Modelled from the spec: the record types of package [types] that
    [CommandGrade] reads, which are declared in other files of the
    repository.  The spec's data model gives a ReportCard [passed] and [note], a
    Commit its step number, transcript, optional ReportCard and score, and
    an event its tag with [execcommand], [streamdata], [exitstatus] and
    [error]; the code below reads the fields under these names. *)
Module ReportCard.
Record t : Type := { Passed : bool; Note : string }.
End ReportCard.

Module EventMessage.
Record t : Type := {
  Event : string;
  ExecCommand : list string;
  StreamData : string;
  ExitStatus : string;
  Error : string;
}.
End EventMessage.

Module Commit.
Record t : Type := {
  AssignmentID : Z;
  Step : Z;
  Transcript : list EventMessage.t;
  ReportCard : option ReportCard.t;
  Score : spec_float;
}.
End Commit.

Module Problem.
Record t : Type := { ID : Z; Unique : string }.
End Problem.

Module ProblemStep.
Record t : Type := { Step : Z; Files : gmap string string }.
End ProblemStep.

Module ProblemInfo.
Record t : Type := { Step : Z; Whitelist : gmap string bool }.
End ProblemInfo.

Module DotFile.
Record t : Type := { Path : string; Problems : gmap string ProblemInfo.t }.
End DotFile.

(** [float64] values are IEEE 754 binary64 numbers. *)
Definition float64_one : spec_float := SFone 53 1024.
Definition float64_eqb (x y : spec_float) : bool := SFeqb x y.

(** What a file holds: bytes, or the JSON text of a dotfile, which is kept
    as the value it encodes. *)
Inductive contents : Type :=
  | Bytes (s : string)
  | DotFileJSON (d : DotFile.t).

Inductive colour : Type := Cyan | Yellow | White | Red.

(** A line of the log, or a message handed to one of the colour printers. *)
Inductive output : Type :=
  | Log (s : string)
  | Color (c : colour) (s : string).

(** The part of the machine that the end of [CommandGrade] acts on: the
    files on disk, directories left implicit, and the terminal. *)
Record world : Type := {
  fs : gmap string contents;
  console : list output;
}.

(** How the command ends: by returning, through [log.Fatalf], or by a
    run-time panic. *)
Inductive ending : Type := Returned | Exited | Panicked.

Definition print (o : output) (w : world) : world :=
  {| fs := fs w; console := console w ++ [o] |}.

Definition set_fs (f : gmap string contents) (w : world) : world :=
  {| fs := f; console := console w |}.

Definition newline : string := String "010"%char "".

(** [len(strings.Split(name, "/")) == 1]: the file lies at the top level
    of the problem's directory. *)
Definition top_level (name : string) : bool :=
  (strings.Split_len name "/" =? 1)%nat.

Section CommandGrade.

(** [filepath.Join] of the standard library. *)
Variable filepath_Join : string -> string -> string.

(** [for name := range oldStep.Files]: files at the top level are kept,
    the others are removed; a file that cannot be removed ends the
    program. *)
Fixpoint delete_old (dir : string) (order : list (string * string))
    (w : world) : ending * world :=
  match order with
  | [] => (Returned, w)
  | (name, _) :: rest =>
      if top_level name then delete_old dir rest w
      else
        let path := filepath_Join dir name in
        let w := print (Log ("deleting " +:+ path +:+ " from old step")) w in
        match fs w !! path with
        | Some _ => delete_old dir rest (set_fs (delete path (fs w)) w)
        | None =>
            (Exited,
             print (Log ("error deleting " +:+ path +:+ ": remove " +:+ path
                         +:+ ": no such file or directory")) w)
        end
  end.

(** [for name, contents := range newStep.Files]: every file is written
    and those at the top level join the whitelist of [info], the pointer
    found in the dotfile, which is [None] when it is nil. *)
Fixpoint write_new (dir : string) (order : list (string * string))
    (info : option ProblemInfo.t) (w : world)
  : ending * option ProblemInfo.t * world :=
  match order with
  | [] => (Returned, info, w)
  | (name, text) :: rest =>
      let path := filepath_Join dir name in
      let w := print (Log ("writing " +:+ path +:+ " from new step")) w in
      let w := set_fs (<[path := Bytes text]> (fs w)) w in
      if top_level name then
        match info with
        | None => (Panicked, info, w)
        | Some i =>
            let i := {| ProblemInfo.Step := ProblemInfo.Step i;
                        ProblemInfo.Whitelist :=
                          <[name := true]> (ProblemInfo.Whitelist i) |} in
            write_new dir rest (Some i) w
        end
      else write_new dir rest info w
  end.

Definition play (event : EventMessage.t) : list output :=
  let tag := EventMessage.Event event in
  if String.eqb tag "exec" then
    [Color Cyan ("$ " +:+ strings.Join (EventMessage.ExecCommand event) " "
                 +:+ newline)]
  else if String.eqb tag "stdin" then [Color Yellow (EventMessage.StreamData event)]
  else if String.eqb tag "stdout" then [Color White (EventMessage.StreamData event)]
  else if String.eqb tag "stderr" then [Color Red (EventMessage.StreamData event)]
  else if String.eqb tag "exit" then
    [Color Cyan (EventMessage.ExitStatus event +:+ newline)]
  else if String.eqb tag "error" then
    [Color Red ("Error: " +:+ EventMessage.Error event +:+ newline)]
  else [].

(** The transcript as the failure branch prints it. *)
Definition replay (transcript : list EventMessage.t) : list output :=
  transcript ≫= play.

Definition passed_in_full (commit : Commit.t) : bool :=
  match Commit.ReportCard commit with
  | Some card => ReportCard.Passed card && float64_eqb (Commit.Score commit) float64_one
  | None => false
  end.

(** [CommandGrade] from the point where the graded commit has come back
    from the server: [commit] is [saved.Commit].  [newStep] is what
    [getObject] finds for the step after it, [None] when there is none;
    [oldStep] is what [mustGetObject] finds for the step itself, [None]
    when the request fails and ends the program.  [oldOrder] and
    [newOrder] are the orders of the two loops over the steps' files. *)
Definition CommandGrade (dir : string) (problem : Problem.t)
    (commit : Commit.t) (dotfile : DotFile.t)
    (newStep oldStep : option ProblemStep.t)
    (oldOrder newOrder : list (string * string)) (w : world)
  : ending * world :=
  if passed_in_full commit then
    let w := print (Log ("step " +:+ strconv.Itoa (Commit.Step commit)
                         +:+ " passed")) w in
    match newStep with
    | None =>
        (Returned, print (Log "you have completed all steps for this problem") w)
    | Some new =>
        match oldStep with
        | None => (Exited, w)
        | Some old =>
            let w := print (Log ("moving to step "
                                 +:+ strconv.Itoa (ProblemStep.Step new))) w in
            match delete_old dir oldOrder w with
            | (Returned, w) =>
                let info := DotFile.Problems dotfile !! Problem.Unique problem in
                match write_new dir newOrder info w with
                | (Returned, Some i, w) =>
                    let i := {| ProblemInfo.Step := goint.add (ProblemInfo.Step i) 1;
                                ProblemInfo.Whitelist := ProblemInfo.Whitelist i |} in
                    let dotfile :=
                      {| DotFile.Path := DotFile.Path dotfile;
                         DotFile.Problems :=
                           <[Problem.Unique problem := i]>
                             (DotFile.Problems dotfile) |} in
                    (Returned,
                     set_fs (<[DotFile.Path dotfile := DotFileJSON dotfile]> (fs w)) w)
                | (Returned, None, w) => (Panicked, w)
                | (e, _, w) => (e, w)
                end
            | (e, w) => (e, w)
            end
        end
    end
  else
    let w := print (Log ("  solution for step "
                         +:+ strconv.Itoa (Commit.Step commit) +:+ " failed")) w in
    let w := match Commit.ReportCard commit with
             | Some card => print (Log ("  ReportCard: " +:+ ReportCard.Note card)) w
             | None => w
             end in
    (Returned, {| fs := fs w; console := console w ++ replay (Commit.Transcript commit) |}).

(** What the two loops come to when no removal fails: the files left by
    the first, the files and the whitelist left by the second, and the
    condition under which every removal of the first finds its file. *)
Fixpoint removable (dir : string) (order : list (string * string))
    (f : gmap string contents) : Prop :=
  match order with
  | [] => True
  | (name, _) :: rest =>
      if top_level name then removable dir rest f
      else is_Some (f !! filepath_Join dir name)
           ∧ removable dir rest (delete (filepath_Join dir name) f)
  end.

Definition removed (dir : string) (order : list (string * string))
    (f : gmap string contents) : gmap string contents :=
  foldl (fun f ne => if top_level ne.1 then f
                     else delete (filepath_Join dir ne.1) f) f order.

Definition written (dir : string) (order : list (string * string))
    (f : gmap string contents) : gmap string contents :=
  foldl (fun f ne => <[filepath_Join dir ne.1 := Bytes ne.2]> f) f order.

Definition whitelisted (order : list (string * string))
    (wl : gmap string bool) : gmap string bool :=
  foldl (fun wl ne => if top_level ne.1 then <[ne.1 := true]> wl else wl)
    wl order.

(** The dotfile that is saved when the step advances. *)
Definition advanced (problem : Problem.t) (dotfile : DotFile.t)
    (info : ProblemInfo.t) (newOrder : list (string * string)) : DotFile.t :=
  {| DotFile.Path := DotFile.Path dotfile;
     DotFile.Problems :=
       <[Problem.Unique problem :=
           {| ProblemInfo.Step := goint.add (ProblemInfo.Step info) 1;
              ProblemInfo.Whitelist :=
                whitelisted newOrder (ProblemInfo.Whitelist info) |}]>
         (DotFile.Problems dotfile) |}.

(** The paths that the first loop removes and those that the second loop
    writes. *)
Definition removed_paths (dir : string) (order : list (string * string))
  : list string :=
  filepath_Join dir <$> List.filter (fun name => negb (top_level name)) order.*1.

Definition written_paths (dir : string) (order : list (string * string))
  : list string :=
  filepath_Join dir <$> order.*1.

End CommandGrade.

(** ** More of the server *)

(** [unBase64]: the decoded bytes when [s] is base64, else [s] itself. *)
Definition unBase64 (s : string) : string :=
  match base64.DecodeString s with
  | Some raw => string_of_bytes raw
  | None => s
  end.

(** What [parseID] hands back besides the id: no error, or the status of
    the error response it has written (the text of the message is left
    out). *)
Definition StatusBadRequest : Z := 400.

Definition parseID (s : string) : Z * option Z :=
  match strconv.ParseInt s with
  | (_, Some _) => (0, Some StatusBadRequest)
  | (id, None) =>
      if id <? 1 then (0, Some StatusBadRequest) else (id, None)
  end.

(** The values that handlers pass for the placeholders of a query. *)
Inductive any : Type :=
  | any_string (s : string)
  | any_int64 (i : Z)
  | any_bool (b : bool).

Definition addWhereEq (where_ : string) (args : list any) (label : string)
    (value : any) : string * list any :=
  let where_ := if String.eqb where_ "" then " WHERE" else where_ +:+ " AND" in
  let args := args ++ [value] in
  (where_ +:+ " " +:+ label +:+ " = $"
   +:+ strconv.Itoa (Z.of_nat (length args)), args).

Section addWhereLike.

(** [strings.ToLower] of the standard library. *)
Variable strings_ToLower : string -> string.

Definition addWhereLike (where_ : string) (args : list any) (label : string)
    (value : string) : string * list any :=
  let where_ := if String.eqb where_ "" then " WHERE" else where_ +:+ " AND" in
  let args := args ++ [any_string ("%" +:+ strings_ToLower value +:+ "%")] in
  (where_ +:+ " lower(" +:+ label +:+ ") LIKE $"
   +:+ strconv.Itoa (Z.of_nat (length args)), args).

(** A condition of a query and the call that adds it. *)
Inductive condition : Type :=
  | WhereEq (label : string) (value : any)
  | WhereLike (label : string) (value : string).

Definition add_condition (q : string * list any) (c : condition)
  : string * list any :=
  match c with
  | WhereEq label value => addWhereEq q.1 q.2 label value
  | WhereLike label value => addWhereLike q.1 q.2 label value
  end.

(** The text a condition contributes and the argument it appends, when it
    is the [n]-th argument of the query. *)
Definition clause_text (c : condition) (n : nat) : string :=
  match c with
  | WhereEq label _ =>
      " " +:+ label +:+ " = $" +:+ strconv.Itoa (Z.of_nat n)
  | WhereLike label _ =>
      " lower(" +:+ label +:+ ") LIKE $" +:+ strconv.Itoa (Z.of_nat n)
  end.

Definition clause_arg (c : condition) : any :=
  match c with
  | WhereEq _ value => value
  | WhereLike _ value => any_string ("%" +:+ strings_ToLower value +:+ "%")
  end.

(** The texts of a run of conditions added to a query that has [n]
    arguments already. *)
Fixpoint clause_texts (n : nat) (cs : list condition) : list string :=
  match cs with
  | [] => []
  | c :: cs => clause_text c (S n) :: clause_texts (S n) cs
  end.

End addWhereLike.

(** *** The registration loop of the daycare role *)

(** What a round of the loop gets back from the TA: an error of
    [http.DefaultClient.Do], or a response with its status and the body
    that was read. *)
Inductive reply : Type :=
  | NoReply (err : string)
  | Reply (StatusCode : Z) (Status : string) (body : string).

Definition StatusOK : Z := 200.

(** [bytes.Split(body, []byte("\n"))]. *)
Fixpoint split_lines (s : string) (line : string) : list string :=
  match s with
  | EmptyString => [line]
  | String c rest =>
      if Ascii.eqb c "010" then line :: split_lines rest ""
      else split_lines rest (line +:+ String c "")
  end.

(** One round of the loop after the request is sent: the new [status] and
    the lines logged. *)
Definition register_round (url status : string) (r : reply)
  : string * list string :=
  match r with
  | NoReply err =>
      ("failed",
       if negb (String.eqb status "failed")
       then ["error connecting to register daycare: " +:+ err] else [])
  | Reply code st body =>
      if code =? StatusOK then
        ("succeeded",
         if negb (String.eqb status "succeeded")
         then ["registered with " +:+ url] else [])
      else
        ("failed",
         if negb (String.eqb status "failed")
         then ("unexpected status from " +:+ url +:+ ": " +:+ st)
              :: ((fun line => "--> " +:+ line)
                    <$> List.filter (fun line => negb (String.eqb line ""))
                          (split_lines body ""))
         else [])
  end.

(** The status after a run of rounds, from the empty status the loop
    starts with. *)
Definition status_after (url : string) (rs : list reply) : string :=
  foldl (fun status r => (register_round url status r).1) "" rs.

Definition registered (r : reply) : bool :=
  match r with
  | NoReply _ => false
  | Reply code _ _ => code =? StatusOK
  end.

(** ** Notions the statements use *)

(** The registration [Insert] keeps for an accepted [reg]. *)
Definition stored (now' : time.Time) (reg : DaycareRegistration)
  : DaycareRegistration :=
  {| Hostname := Hostname reg;
     ProblemTypes := sort.Strings (ProblemTypes reg);
     Capacity := Capacity reg;
     Time := now';
     Version := "";
     Signature := "" |}.

(** The three checks of [Insert], over the integers. *)
Definition acceptable (secret : string) (now : time.Time)
    (reg : DaycareRegistration) : Prop :=
  Signature reg = (ComputeSignature secret reg).1
  ∧ Version reg = types.Version types.CurrentVersion
  ∧ Z.abs (now - Time reg) <= 60 * time.Second.

(** An entry is stale once its time lies more than twice the registration
    interval before [now]. *)
Definition stale (now : time.Time) (reg : DaycareRegistration) : Prop :=
  2 * (10 * time.Second) < now - Time reg.

#[global] Instance stale_dec now reg : Decision (stale now reg) :=
  Z_lt_dec (2 * (10 * time.Second)) (now - Time reg).

(** The sum of the capacities of the entries that list [problemType],
    over the integers. *)
Definition weight (problemType : string) (entries : iteration) : Z :=
  foldr (fun he acc =>
           if decide (problemType ∈ ProblemTypes he.2) then Capacity he.2 + acc
           else acc)
    0 entries.

(** The same sum with the test that [Assign] applies, the binary search of
    [eligible], in place of membership. *)
Definition eweight (problemType : string) (entries : iteration) : Z :=
  foldr (fun he acc =>
           if eligible problemType he.2 then Capacity he.2 + acc else acc)
    0 entries.

(** From the skipped weight [s] on, the entries that pass the test have
    capacities that are not negative and the running sum stays within
    Go's [int]. *)
Definition weights_fit (pt : string) (s : Z) (l : iteration) : Prop :=
  (forall h r, (h, r) ∈ l -> eligible pt r = true -> 0 <= Capacity r)
  /\ 0 <= s /\ s + eweight pt l <= goint.max_int.

Definition total_weight (problemType : string) (m : daycares) : Z :=
  weight problemType (map_to_list m).

(** Every registration in the registry has its problem types sorted, as
    [Insert] leaves them. *)
Definition registry_sorted (m : daycares) : Prop :=
  forall host reg, m !! host = Some reg -> Sorted string_le (ProblemTypes reg).

Definition positive_capacities (m : daycares) : Prop :=
  forall host reg, m !! host = Some reg -> 0 < Capacity reg.

#[global] Instance outcome_eq_dec {A} `{EqDecision A} : EqDecision (outcome A).
Proof. solve_decision. Defined.

(** How many of the draws [0 .. total - 1] make [Assign] return [host]. *)
Definition draws_for (order1 order2 : iteration) (problemType host : string)
    (total : Z) : nat :=
  length (filter (fun draw => Assign order1 order2 draw problemType
                              = Return (host, None))
            (seqZ 0 total)).

(** The registries that the methods can produce from the empty map of
    [init]. *)
Inductive reachable : daycares -> Prop :=
  | reachable_init : reachable ∅
  | reachable_Expire now order m :
      reachable m -> order ≡ₚ map_to_list m -> reachable (Expire now order m)
  | reachable_Insert secret now now' reg m :
      reachable m -> reachable (Insert secret now now' reg m).2.

(** ** Sample inputs *)

Module sample.

Definition secret : string := "secret".

(** 2017-07-14T02:40:00Z and 2400-01-01T00:00:00Z. *)
Definition t0 : time.Time := 1500000000 * time.Second.
Definition t2400 : time.Time := 13569465600 * time.Second.

Definition cfg : Config.t :=
  {| Config.Hostname := "a.example.org";
     Config.DaycareSecret := secret;
     Config.Capacity := 3;
     Config.ProblemTypes := ["python27unittest"; "gotest"] |}.

(** A configuration that the daycare role refuses to start with, and
    whose registration a client that knows the secret can still sign. *)
Definition cfg_zero : Config.t :=
  {| Config.Hostname := "a.example.org";
     Config.DaycareSecret := secret;
     Config.Capacity := 0;
     Config.ProblemTypes := ["gotest"] |}.

Definition host (name : string) (pts : list string) (capacity : Z)
    (t : time.Time) : DaycareRegistration :=
  {| Hostname := name; ProblemTypes := pts; Capacity := capacity;
     Time := t; Version := ""; Signature := "" |}.

(** The registry of the spec's sixth scenario: A with capacity 3 and B
    with capacity 1, both serving [gounittest]. *)
Definition skewed : daycares :=
  {[ "A" := host "A" ["gounittest"] 3 t0;
     "B" := host "B" ["gounittest"] 1 t0 ]}.

(** Two positive capacities whose sum is 2^63. *)
Definition huge : daycares :=
  {[ "A" := host "A" ["gounittest"] (2 ^ 62) t0;
     "B" := host "B" ["gounittest"] (2 ^ 62) t0 ]}.

Definition negative : daycares :=
  {[ "A" := host "A" ["gounittest"] 5 t0;
     "B" := host "B" ["gounittest"] (-3) t0 ]}.

Definition cancelling : daycares :=
  {[ "A" := host "A" ["gounittest"] 1 t0;
     "B" := host "B" ["gounittest"] (-1) t0 ]}.

(** A registered 100 seconds before [later], B ten seconds before. *)
Definition later : time.Time := t0 + 100 * time.Second.

Definition aged : daycares :=
  {[ "A" := host "A" ["gounittest"] 1 t0;
     "B" := host "B" ["gounittest"] 1 (t0 + 90 * time.Second) ]}.

Definition Join (dir name : string) : string := dir +:+ "/" +:+ name.

Definition transcript : list EventMessage.t :=
  [ {| EventMessage.Event := "exec";
       EventMessage.ExecCommand := ["python3"; "tests.py"];
       EventMessage.StreamData := ""; EventMessage.ExitStatus := "";
       EventMessage.Error := "" |};
    {| EventMessage.Event := "stdout"; EventMessage.ExecCommand := [];
       EventMessage.StreamData := "OK"; EventMessage.ExitStatus := "";
       EventMessage.Error := "" |} ].

Definition passed_commit : Commit.t :=
  {| Commit.AssignmentID := 7; Commit.Step := 2;
     Commit.Transcript := transcript;
     Commit.ReportCard := Some {| ReportCard.Passed := true; ReportCard.Note := "" |};
     Commit.Score := float64_one |}.


Definition problem : Problem.t := {| Problem.ID := 11; Problem.Unique := "sum" |}.

Definition info : ProblemInfo.t :=
  {| ProblemInfo.Step := 2; ProblemInfo.Whitelist := {[ "sum.py" := true ]} |}.

Definition dotfile : DotFile.t :=
  {| DotFile.Path := "hw/.grind"; DotFile.Problems := {[ "sum" := info ]} |}.

Definition old_step : ProblemStep.t :=
  {| ProblemStep.Step := 2;
     ProblemStep.Files := {[ "sum.py" := "pass"; "tests/test_2.py" := "t2" ]} |}.

Definition new_step : ProblemStep.t :=
  {| ProblemStep.Step := 3;
     ProblemStep.Files := {[ "doc.md" := "step 3"; "tests/test_3.py" := "t3" ]} |}.

Definition disk : world :=
  {| fs := {[ "hw/sum.py" := Bytes "def sum(): pass";
              "hw/tests/test_2.py" := Bytes "t2";
              "hw/.grind" := DotFileJSON dotfile ]};
     console := [] |}.

End sample.

(** * Part II: properties *)

(** ** Machine integers *)

Lemma wrap_in_range x : goint.in_range (goint.wrap x).
Proof.
  unfold goint.in_range, goint.wrap, goint.min_int, goint.max_int.
  pose proof (Z.mod_pos_bound (x + 2 ^ 63) (2 ^ 64)). lia.
Qed.

Lemma wrap_id x : goint.in_range x -> goint.wrap x = x.
Proof.
  unfold goint.in_range, goint.wrap, goint.min_int, goint.max_int. intros Hx.
  rewrite Z.mod_small by lia. lia.
Qed.

Lemma wrap_add_l a b : goint.wrap (goint.wrap a + b) = goint.wrap (a + b).
Proof.
  unfold goint.wrap. f_equal.
  replace ((a + 2 ^ 63) mod 2 ^ 64 - 2 ^ 63 + b + 2 ^ 63)
    with ((a + 2 ^ 63) mod 2 ^ 64 + b) by lia.
  replace (a + b + 2 ^ 63) with ((a + 2 ^ 63) + b) by lia.
  apply Zplus_mod_idemp_l.
Qed.

Lemma neg_min_int : goint.neg goint.min_int = goint.min_int.
Proof. reflexivity. Qed.

Lemma neg_id a :
  goint.min_int < a <= goint.max_int -> goint.neg a = - a.
Proof.
  intros Ha. unfold goint.neg. apply wrap_id.
  unfold goint.in_range, goint.min_int, goint.max_int in *. lia.
Qed.

(** ** The order on strings *)

Lemma string_leb_spec a b :
  string_leb a b = true <-> a = b \/ String_as_OT.lt a b.
Proof.
  unfold string_leb.
  destruct (String_as_OT.compare_spec a b) as [Heq|Hlt|Hgt].
  - split; auto.
  - split; auto.
  - split; [discriminate|].
    intros [->|Hlt].
    + exfalso. exact (irreflexivity String_as_OT.lt _ Hgt).
    + exfalso. apply (irreflexivity String_as_OT.lt a). by etrans.
Qed.

#[global] Instance string_le_refl : Reflexive string_le.
Proof. intros a. apply string_leb_spec. by left. Qed.

#[global] Instance string_le_trans : Transitive string_le.
Proof.
  intros a b c Hab Hbc. apply string_leb_spec.
  apply string_leb_spec in Hab as [->|Hab];
    apply string_leb_spec in Hbc as [->|Hbc]; auto.
  right. by etrans.
Qed.

#[global] Instance string_le_antisym : AntiSymm (=) string_le.
Proof.
  intros a b Hab Hba.
  apply string_leb_spec in Hab as [->|Hab]; [done|].
  apply string_leb_spec in Hba as [->|Hba]; [done|].
  exfalso. apply (irreflexivity String_as_OT.lt a). by etrans.
Qed.

#[global] Instance string_le_total : Total string_le.
Proof.
  intros a b. unfold string_le, string_leb.
  destruct (String_as_OT.compare_spec a b) as [Heq|Hlt|Hgt]; auto.
  right. destruct (String_as_OT.compare_spec b a) as [?|?|Hgt']; auto.
  exfalso. apply (irreflexivity String_as_OT.lt a). by etrans.
Qed.

Lemma string_leb_false a b : string_leb a b = false -> string_le b a /\ a <> b.
Proof.
  intros Hab. split.
  - destruct (total string_le a b) as [H|H]; [|done].
    unfold string_le in H. congruence.
  - intros ->. pose proof (reflexivity (R:=string_le) b) as H.
    unfold string_le in H. congruence.
Qed.

(** ** Sorting and searching *)

Lemma Strings_Sorted a : Sorted string_le (sort.Strings a).
Proof. apply Sorted_merge_sort. apply _. Qed.

Lemma Strings_Permutation a : sort.Strings a ≡ₚ a.
Proof. apply merge_sort_Permutation. Qed.

(** The sorted rearrangement of a list is unique. *)
Lemma Strings_perm a b : a ≡ₚ b -> sort.Strings a = sort.Strings b.
Proof.
  intros Hab. apply (Sorted_unique string_le); try apply Strings_Sorted.
  by rewrite !Strings_Permutation.
Qed.

Lemma Strings_sorted_id a : Sorted string_le a -> sort.Strings a = a.
Proof.
  intros Ha. apply (Sorted_unique string_le); auto using Strings_Sorted.
  apply Strings_Permutation.
Qed.

Lemma Strings_idemp a : sort.Strings (sort.Strings a) = sort.Strings a.
Proof. apply Strings_sorted_id, Strings_Sorted. Qed.

Lemma Search_loop_S budget f i j :
  sort.Search_loop (S budget) f i j =
  if (i <? j)%nat then
    if negb (f ((i + j) / 2)%nat)
    then sort.Search_loop budget f ((i + j) / 2 + 1)%nat j
    else sort.Search_loop budget f i ((i + j) / 2)%nat
  else i.
Proof. reflexivity. Qed.

Lemma half_between i j :
  (i < j)%nat -> (i <= (i + j) / 2 < j)%nat.
Proof.
  intros Hij. pose proof (Nat.div_mod_eq (i + j) 2) as Hdm.
  pose proof (Nat.mod_upper_bound (i + j) 2). lia.
Qed.

(** The budget never runs out before the loop ends: any two budgets that
    cover [j - i] give the same result, whatever [f] is. *)
Lemma Search_loop_enough f b b' i j :
  (j - i <= b)%nat -> (j - i <= b')%nat ->
  sort.Search_loop b f i j = sort.Search_loop b' f i j.
Proof.
  revert b' i j. induction b as [|b IH]; intros b' i j Hb Hb'.
  - destruct b' as [|b']; [done|]. rewrite Search_loop_S.
    destruct (Nat.ltb_spec i j); [lia|done].
  - destruct b' as [|b'].
    + rewrite Search_loop_S. destruct (Nat.ltb_spec i j); [lia|done].
    + rewrite !Search_loop_S. destruct (Nat.ltb_spec i j) as [Hlt|]; [|done].
      pose proof (half_between i j Hlt).
      destruct (negb _); apply IH; lia.
Qed.

(** The loop invariant of [sort.Search], as its source states it:
    [f(i-1) == false] and [f(j) == true], with [f(-1) == false] and
    [f(n) == true] by convention. *)
Lemma Search_loop_spec f n budget i j :
  (j - i <= budget)%nat -> (i <= j <= n)%nat ->
  (forall k, (k < i)%nat -> f k = false) ->
  (forall k, (j <= k < n)%nat -> f k = true) ->
  (forall k l, (k <= l < n)%nat -> f k = true -> f l = true) ->
  (sort.Search_loop budget f i j <= n)%nat
  /\ (forall k, (k < sort.Search_loop budget f i j)%nat -> f k = false)
  /\ (forall k, (sort.Search_loop budget f i j <= k < n)%nat -> f k = true).
Proof.
  revert i j. induction budget as [|budget IH]; intros i j Hb Hij Hlo Hhi Hmono.
  - assert (i = j) by lia. subst. simpl. auto with lia.
  - rewrite Search_loop_S. destruct (Nat.ltb_spec i j) as [Hlt|Hge].
    + pose proof (half_between i j Hlt) as Hh.
      set (h := ((i + j) / 2)%nat) in *.
      destruct (f h) eqn:Hfh; simpl.
      * apply IH; auto with lia.
        intros k Hk. destruct (decide (j <= k)%nat); [apply Hhi; lia|].
        apply (Hmono h k); [lia|done].
      * apply IH; auto with lia.
        intros k Hk. destruct (decide (k < i)%nat); [by apply Hlo|].
        destruct (f k) eqn:Hfk; [|done].
        rewrite (Hmono k h) in Hfh; [done|lia|done].
    + assert (i = j) by lia. subst. auto with lia.
Qed.

Lemma Search_spec f n :
  (forall k l, (k <= l < n)%nat -> f k = true -> f l = true) ->
  (sort.Search n f <= n)%nat
  /\ (forall k, (k < sort.Search n f)%nat -> f k = false)
  /\ (forall k, (sort.Search n f <= k < n)%nat -> f k = true).
Proof.
  intros Hmono. apply Search_loop_spec; auto with lia.
Qed.

Lemma Sorted_lookup_le (l : list string) i j x y :
  Sorted string_le l -> (i <= j)%nat -> l !! i = Some x -> l !! j = Some y ->
  string_le x y.
Proof.
  intros Hs. apply (Sorted_StronglySorted string_le) in Hs.
  revert i j x y.
  induction Hs as [|a l Hs IH Ha]; intros i j x y Hij Hi Hj; [done|].
  destruct i as [|i], j as [|j]; simplify_eq/=.
  - reflexivity.
  - rewrite Forall_forall in Ha. apply Ha.
    by eapply list_elem_of_lookup_2.
  - lia.
  - eapply IH; [|done..]. lia.
Qed.

(** On a sorted list the binary search of [eligible] decides membership. *)
Lemma eligible_elem_of pt elt : eligible pt elt = true -> pt ∈ ProblemTypes elt.
Proof.
  unfold eligible. intros [_ H]%andb_true_iff.
  apply bool_decide_eq_true in H. by eapply list_elem_of_lookup_2.
Qed.

Lemma eligible_sorted pt elt :
  Sorted string_le (ProblemTypes elt) ->
  eligible pt elt = true <-> pt ∈ ProblemTypes elt.
Proof.
  intros Hs. split; [apply eligible_elem_of|].
  intros [k Hk]%list_elem_of_lookup_1. unfold eligible, sort.SearchStrings.
  set (l := ProblemTypes elt) in *.
  set (f := fun i => match l !! i with Some s => string_leb pt s | None => true end).
  assert (Hmono : forall a b, (a <= b < length l)%nat -> f a = true -> f b = true).
  { intros a b Hab. unfold f.
    destruct (l !! a) as [x|] eqn:Ha; [|apply lookup_ge_None in Ha; lia].
    destruct (lookup_lt_is_Some_2 l b) as [y Hb]; [lia|]. rewrite Hb.
    intros Hx. change (string_le pt y). trans x; [done|].
    eapply Sorted_lookup_le; [done| |done..]. lia. }
  destruct (Search_spec f (length l) Hmono) as (Hr & Hlo & Hhi).
  set (r := sort.Search (length l) f) in *.
  pose proof (lookup_lt_Some _ _ _ Hk) as Hklt.
  assert (Hfk : f k = true).
  { unfold f. rewrite Hk. apply (reflexivity (R:=string_le)). }
  assert (r <= k)%nat as Hrk.
  { destruct (decide (r <= k)%nat); [done|].
    rewrite Hlo in Hfk by lia. done. }
  apply andb_true_iff. split; [apply Nat.ltb_lt; lia|].
  apply bool_decide_eq_true.
  destruct (lookup_lt_is_Some_2 l r) as [y Hy]; [lia|]. rewrite Hy. f_equal.
  assert (f r = true) as Hfr by (apply Hhi; lia).
  unfold f in Hfr. rewrite Hy in Hfr.
  apply (anti_symm string_le); [|done].
  eapply Sorted_lookup_le; [done| |done..]. done.
Qed.

(** ** Hashing: the published test vectors *)

(** FIPS 180-4, the digest of "abc"; RFC 4231, test case 2. *)
Lemma sha256_hmac_test_vectors :
  length sha256.K = 64%nat
  /\ sha256.K !! 0%nat = Some 0x428a2f98
  /\ sha256.K !! 63%nat = Some 0xc67178f2
  /\ sha256.H0 !! 0%nat = Some 0x6a09e667
  /\ base64.EncodeToString (sha256.Sum256 (bytes_of_string "abc"))
     = "ungWv48Bz+pBQUDeXa4iI7ADYaOWF3qctBD/YfIAFa0="
  /\ base64.EncodeToString
       (hmac.Sum (bytes_of_string "Jefe")
          (bytes_of_string "what do ya want for nothing?"))
     = "W9zBRr9gdU5qBCQmCJV1x1oAPwidJzmDnexYuWTsOEM=".
Proof. vm_compute. done. Qed.

(** The text that a daycare signs, and its signature. *)
Lemma canonical_form_sample :
  string_of_bytes (encode (signed_values (new_registration sample.cfg sample.t0)))
  = "capacity=3&hostname=a.example.org&problemType-0=gotest&problemType-1=python27unittest&time=2017-07-14T02%3A40%3A00Z&version=1.9.6"
  /\ Signature (new_registration sample.cfg sample.t0)
     = "ixN8tUJiLoO7dVN1XadxRnPWuUY4or9mkGKZSnjFL30=".
Proof. vm_compute. done. Qed.

(** ** Time *)

Lemma Sub_spec t u :
  time.Sub t u =
  if t - u <? time.minDuration then time.minDuration
  else if time.maxDuration <? t - u then time.maxDuration
  else t - u.
Proof.
  unfold time.Sub, time.Add, time.minDuration, time.maxDuration.
  pose proof (wrap_in_range (t - u)) as Hr.
  destruct (decide (goint.in_range (t - u))) as [Hin|Hout].
  - rewrite (wrap_id _ Hin). unfold goint.in_range in Hin.
    rewrite (proj2 (Z.eqb_eq _ _)) by lia.
    rewrite (proj2 (Z.ltb_ge _ _)) by lia.
    rewrite (proj2 (Z.ltb_ge _ _)) by lia. done.
  - unfold goint.in_range in *.
    rewrite (proj2 (Z.eqb_neq _ _)) by lia.
    destruct (Z.ltb_spec t u), (Z.ltb_spec (t - u) goint.min_int),
      (Z.ltb_spec goint.max_int (t - u)); try done;
      unfold goint.min_int, goint.max_int in *; lia.
Qed.

(** [Sub] never leaves the range of a duration. *)
Lemma Sub_in_range t u : goint.in_range (time.Sub t u).
Proof.
  rewrite Sub_spec. unfold goint.in_range, time.minDuration, time.maxDuration.
  repeat case_match; unfold goint.min_int, goint.max_int in *; lia.
Qed.

(** Saturation does not blur the comparison with twenty seconds. *)
Lemma expired_iff now elt :
  expired now elt = true <-> 2 * (10 * time.Second) < now - Time elt.
Proof.
  unfold expired, time.Since, daycareRegistrationInterval.
  rewrite bool_decide_eq_true, Sub_spec.
  unfold time.minDuration, time.maxDuration, goint.min_int, goint.max_int,
    time.Second.
  repeat case_match; lia.
Qed.

(** ** [Expire] *)

Lemma Expire_lookup now order m host :
  Expire now order m !! host =
  if existsb (fun he => bool_decide (he.1 = host) && expired now he.2) order
  then None else m !! host.
Proof.
  unfold Expire. revert m.
  induction order as [|[h elt] order IH]; intros m; [done|].
  cbn [foldl existsb fst snd]. rewrite IH.
  destruct (existsb _ order); [by rewrite orb_true_r|].
  rewrite orb_false_r. destruct (expired now elt); cbn.
  - case_bool_decide; subst; [by rewrite lookup_delete_eq|].
    rewrite andb_false_l. by rewrite lookup_delete_ne.
  - by rewrite andb_false_r.
Qed.

Lemma existsb_expired_iff now (order : iteration) host :
  existsb (fun he => bool_decide (he.1 = host) && expired now he.2) order = true
  <-> exists elt, (host, elt) ∈ order /\ expired now elt = true.
Proof.
  rewrite existsb_exists. split.
  - intros ([h elt] & Hin & [Hh He]%andb_true_iff).
    apply bool_decide_eq_true in Hh. cbn in *. subst.
    exists elt. split; [by apply list_elem_of_In|done].
  - intros (elt & Hin & He). exists (host, elt).
    split; [by apply list_elem_of_In|]. cbn.
    rewrite He. by rewrite bool_decide_eq_true_2.
Qed.

Lemma Expire_lookup_stale now (order : iteration) (m : daycares) host :
  order ≡ₚ map_to_list m ->
  Expire now order m !! host =
  match m !! host with
  | Some elt => if decide (stale now elt) then None else Some elt
  | None => None
  end.
Proof.
  intros Hperm. rewrite Expire_lookup. unfold stale.
  destruct (existsb _ order) eqn:Hex.
  - apply existsb_expired_iff in Hex as (elt & Hin & He).
    rewrite Hperm in Hin. apply elem_of_map_to_list in Hin. rewrite Hin.
    apply expired_iff in He. by rewrite decide_True.
  - destruct (m !! host) as [elt|] eqn:Hm; [|done].
    rewrite decide_False; [done|]. intros Hlt%expired_iff.
    assert (existsb (fun he => bool_decide (he.1 = host) && expired now he.2)
              order = true) as Hex'; [|congruence].
    apply existsb_expired_iff. exists elt. split; [|done].
    rewrite Hperm. by apply elem_of_map_to_list.
Qed.

(** C4.  [Expire] removes from the registry exactly the entries whose
    [Time] lies more than twice the registration interval, twenty
    seconds, before the current time; every other entry stays, under the
    same key and with the same registration.  This holds whatever order
    the loop meets the entries in. *)
Theorem Expire_removes_exactly_stale (now : time.Time) (order : iteration)
    (m : daycares) :
  order ≡ₚ map_to_list m ->
  (forall host elt, m !! host = Some elt ->
     2 * (10 * time.Second) < now - Time elt ->
     Expire now order m !! host = None)
  /\ (forall host elt, m !! host = Some elt ->
        now - Time elt <= 2 * (10 * time.Second) ->
        Expire now order m !! host = Some elt)
  /\ (forall host, m !! host = None -> Expire now order m !! host = None)
  /\ Expire now order m
     = filter (fun he => now - Time he.2 <= 2 * (10 * time.Second)) m.
Proof.
  intros Hperm. split_and!.
  - intros host elt Hm Hlt.
    rewrite (Expire_lookup_stale now order m host Hperm), Hm.
    by rewrite decide_True.
  - intros host elt Hm Hle.
    rewrite (Expire_lookup_stale now order m host Hperm), Hm.
    rewrite decide_False; [done|]. unfold stale. lia.
  - intros host Hm.
    by rewrite (Expire_lookup_stale now order m host Hperm), Hm.
  - apply map_eq. intros host.
    rewrite (Expire_lookup_stale now order m host Hperm), map_lookup_filter.
    destruct (m !! host) as [elt|]; [|done]. cbn [mbind option_bind snd].
    unfold stale. case_decide.
    + rewrite option_guard_False by lia. done.
    + rewrite option_guard_True by lia. done.
Qed.

(** ** [ComputeSignature] *)

Lemma ComputeSignature_fst secret reg :
  (ComputeSignature secret reg).1 =
  base64.EncodeToString
    (hmac.Sum (bytes_of_string secret)
       (encode (signed_values
                  (set_ProblemTypes (sort.Strings (ProblemTypes reg)) reg)))).
Proof. reflexivity. Qed.

Lemma ComputeSignature_snd secret reg :
  (ComputeSignature secret reg).2 =
  set_ProblemTypes (sort.Strings (ProblemTypes reg)) reg.
Proof. reflexivity. Qed.

Lemma ComputeSignature_pair secret reg :
  ComputeSignature secret reg =
  ((ComputeSignature secret reg).1,
   set_ProblemTypes (sort.Strings (ProblemTypes reg)) reg).
Proof. reflexivity. Qed.

(** The signed values read the receiver's host name, problem types,
    capacity, rounded time and version, and nothing else. *)
Lemma signed_values_ext r1 r2 :
  Hostname r1 = Hostname r2 -> ProblemTypes r1 = ProblemTypes r2 ->
  Capacity r1 = Capacity r2 ->
  time.Round (Time r1) time.Second = time.Round (Time r2) time.Second ->
  Version r1 = Version r2 ->
  signed_values r1 = signed_values r2.
Proof.
  intros Hh Hp Hc Ht Hv. unfold signed_values.
  by rewrite Hh, Hp, Hc, Ht, Hv.
Qed.

(** C7.  The signature is a function of the secret, the host name, the
    problem types up to their order, the capacity, the time rounded to the
    second, and the version: two registrations that agree on these, in
    particular two that differ by a permutation of the problem types or by
    times that round to the same second, get the same base64 text of the
    HMAC-SHA-256; and a second call on the receiver the first call left
    behind returns what the first call returned. *)
Theorem ComputeSignature_deterministic (secret : string)
    (r1 r2 : DaycareRegistration) :
  Hostname r1 = Hostname r2 ->
  ProblemTypes r1 ≡ₚ ProblemTypes r2 ->
  Capacity r1 = Capacity r2 ->
  time.Round (Time r1) time.Second = time.Round (Time r2) time.Second ->
  Version r1 = Version r2 ->
  (ComputeSignature secret r1).1 = (ComputeSignature secret r2).1
  /\ (ComputeSignature secret (ComputeSignature secret r1).2).1
     = (ComputeSignature secret r1).1.
Proof.
  intros Hh Hp Hc Ht Hv. rewrite !ComputeSignature_fst. split.
  - do 3 f_equal. apply signed_values_ext; cbn; auto.
    by apply Strings_perm.
  - rewrite ComputeSignature_snd. do 3 f_equal.
    apply signed_values_ext; cbn; auto. apply Strings_idemp.
Qed.

(** C10.  The call sorts the receiver's problem types in place and
    touches no other field; the list it leaves is sorted and holds the
    same problem types. *)
Theorem ComputeSignature_receiver (secret : string) (reg : DaycareRegistration) :
  let reg' := (ComputeSignature secret reg).2 in
  ProblemTypes reg' = sort.Strings (ProblemTypes reg)
  /\ Sorted string_le (ProblemTypes reg')
  /\ ProblemTypes reg' ≡ₚ ProblemTypes reg
  /\ Hostname reg' = Hostname reg
  /\ Capacity reg' = Capacity reg
  /\ Time reg' = Time reg
  /\ Version reg' = Version reg
  /\ Signature reg' = Signature reg.
Proof.
  cbn zeta. rewrite ComputeSignature_snd. cbn.
  split_and!; auto using Strings_Sorted, Strings_Permutation.
Qed.

(** ** [Insert] *)

Lemma Insert_unfold secret now now' reg m :
  Insert secret now now' reg m =
  let sig := (ComputeSignature secret reg).1 in
  let reg1 := set_ProblemTypes (sort.Strings (ProblemTypes reg)) reg in
  if negb (String.eqb sig (Signature reg)) then
    (Some ("signature mismatch: computed " +:+ sig +:+ " but found "
           +:+ Signature reg), reg1, m)
  else if negb (String.eqb (Version reg) (types.Version types.CurrentVersion)) then
    (Some ("version mismatch: daycare is " +:+ Version reg +:+ ", but ta is "
           +:+ types.Version types.CurrentVersion), reg1, m)
  else
    let drift := time.Since now (Time reg) in
    let drift := if drift <? 0 then goint.neg drift else drift in
    if time.Minute <? drift then (Some "time drift is too great", reg1, m)
    else (None, stored now' reg, <[Hostname reg := stored now' reg]> m).
Proof.
  unfold Insert. rewrite ComputeSignature_pair. cbn zeta.
  cbn [set_ProblemTypes Hostname ProblemTypes Capacity Time Version Signature].
  unfold stored. by rewrite Strings_idemp.
Qed.

(** As long as the registration's time is less than 2^63 nanoseconds
    ahead of the clock, the drift that [Insert] compares with a minute is
    the distance between the two, capped at the largest duration. *)
Lemma drift_in_range now t :
  goint.min_int < now - t ->
  (if time.Since now t <? 0 then goint.neg (time.Since now t)
   else time.Since now t)
  = Z.min (Z.abs (now - t)) goint.max_int.
Proof.
  intros Hlo. unfold time.Since. rewrite Sub_spec.
  unfold time.minDuration, time.maxDuration.
  destruct (Z.ltb_spec (now - t) goint.min_int); [lia|].
  destruct (Z.ltb_spec goint.max_int (now - t)).
  - destruct (Z.ltb_spec goint.max_int 0);
      unfold goint.min_int, goint.max_int in *; lia.
  - destruct (Z.ltb_spec (now - t) 0).
    + rewrite neg_id by lia. unfold goint.min_int, goint.max_int in *. lia.
    + unfold goint.min_int, goint.max_int in *. lia.
Qed.

(** Once it is 2^63 nanoseconds or more ahead, the difference is the
    smallest duration, its negation is the smallest duration again, and
    the drift is negative. *)
Lemma drift_far_future now t :
  now - t <= goint.min_int ->
  (if time.Since now t <? 0 then goint.neg (time.Since now t)
   else time.Since now t)
  = goint.min_int.
Proof.
  intros Hlo. unfold time.Since. rewrite Sub_spec.
  unfold time.minDuration, time.maxDuration.
  destruct (Z.ltb_spec (now - t) goint.min_int).
  - reflexivity.
  - assert (now - t = goint.min_int) as -> by lia. reflexivity.
Qed.

Lemma minute_ltb_drift d :
  (time.Minute <? Z.min (Z.abs d) goint.max_int) = true
  <-> 60 * time.Second < Z.abs d.
Proof.
  rewrite Z.ltb_lt. unfold time.Minute, time.Second, goint.max_int. lia.
Qed.

(** [Insert] rejects exactly the registrations that fail one of the three
    checks, provided the registration's time is less than 2^63
    nanoseconds (some 292 years) ahead of the clock. *)
Lemma Insert_rejects_iff secret now now' reg m :
  goint.min_int < now - Time reg ->
  (Insert secret now now' reg m).1.1 ≠ None <-> ¬ acceptable secret now reg.
Proof.
  intros Hlo. rewrite Insert_unfold. cbn zeta. unfold acceptable.
  rewrite (drift_in_range now (Time reg) Hlo).
  pose proof (minute_ltb_drift (now - Time reg)) as Hd.
  destruct (String.eqb_spec (ComputeSignature secret reg).1 (Signature reg))
    as [Hs|Hs]; cbn [negb fst].
  2:{ split; [intros _ [? _]; congruence|intros _; discriminate]. }
  destruct (String.eqb_spec (Version reg) (types.Version types.CurrentVersion))
    as [Hv|Hv]; cbn [negb fst].
  2:{ split; [intros _ (_ & ? & _); congruence|intros _; discriminate]. }
  destruct (time.Minute <? Z.min (Z.abs (now - Time reg)) goint.max_int);
    cbn [fst].
  - split; [intros _ (_ & _ & ?)|intros _; discriminate].
    assert (60 * time.Second < Z.abs (now - Time reg)) by by apply Hd. lia.
  - split; [congruence|]. intros Hn. exfalso. apply Hn. split_and!; auto.
    destruct (decide (60 * time.Second < Z.abs (now - Time reg))) as [Hlt|];
      [|lia].
    apply Hd in Hlt. discriminate.
Qed.

(** A registration dated 2^63 nanoseconds or more after the clock passes
    the drift check whatever the clock says. *)
Lemma Insert_accepts_far_future secret now now' reg m :
  Signature reg = (ComputeSignature secret reg).1 ->
  Version reg = types.Version types.CurrentVersion ->
  now - Time reg <= goint.min_int ->
  Insert secret now now' reg m
  = (None, stored now' reg, <[Hostname reg := stored now' reg]> m).
Proof.
  intros Hs Hv Hlo. rewrite Insert_unfold. cbn zeta.
  rewrite (drift_far_future now (Time reg) Hlo).
  rewrite <- Hs, Hv, !String.eqb_refl. reflexivity.
Qed.

(** C5.  A call of [Insert] that returns an error leaves the registry as
    it was.  A call that succeeds changes the entry under the
    registration's host name and no other: that entry becomes the
    registration with its problem types sorted, its time set to the clock
    at the insertion and its version and signature emptied. *)
Theorem Insert_frame (secret : string) (now now' : time.Time)
    (reg : DaycareRegistration) (m : daycares)
    (err : option string) (reg' : DaycareRegistration) (m' : daycares) :
  Insert secret now now' reg m = (err, reg', m') ->
  match err with
  | Some _ => m' = m
  | None =>
      m' !! Hostname reg
      = Some {| Hostname := Hostname reg;
                ProblemTypes := sort.Strings (ProblemTypes reg);
                Capacity := Capacity reg;
                Time := now';
                Version := "";
                Signature := "" |}
      /\ Sorted string_le (sort.Strings (ProblemTypes reg))
      /\ forall host, host ≠ Hostname reg -> m' !! host = m !! host
  end.
Proof.
  rewrite Insert_unfold. cbn zeta.
  destruct (negb _); [by intros [= <- <- <-]|].
  destruct (negb _); [by intros [= <- <- <-]|].
  destruct (time.Minute <? _); intros [= <- <- <-]; [reflexivity|].
  split_and!.
  - apply lookup_insert_eq.
  - apply Strings_Sorted.
  - intros host Hne. by apply lookup_insert_ne.
Qed.

(** ** [Assign]: the weights *)

Lemma eweight_cons pt h r l :
  eweight pt ((h, r) :: l)
  = if eligible pt r then Capacity r + eweight pt l else eweight pt l.
Proof. reflexivity. Qed.

Lemma eweight_app pt l1 l2 : eweight pt (l1 ++ l2) = eweight pt l1 + eweight pt l2.
Proof.
  induction l1 as [|[h r] l1 IH]; [done|].
  rewrite <- app_comm_cons, !eweight_cons, IH. destruct (eligible pt r); lia.
Qed.

Lemma eweight_perm pt l1 l2 : l1 ≡ₚ l2 -> eweight pt l1 = eweight pt l2.
Proof.
  induction 1 as [|[h r] l1 l2 _ IH|[h r] [h' r'] l|l1 l2 l3 _ IH1 _ IH2].
  - done.
  - rewrite !eweight_cons, IH. done.
  - rewrite !eweight_cons. destruct (eligible pt r), (eligible pt r'); lia.
  - congruence.
Qed.

Lemma weight_cons pt h r l :
  weight pt ((h, r) :: l)
  = if decide (pt ∈ ProblemTypes r) then Capacity r + weight pt l
    else weight pt l.
Proof. reflexivity. Qed.

Lemma weight_perm pt l1 l2 : l1 ≡ₚ l2 -> weight pt l1 = weight pt l2.
Proof.
  induction 1 as [|[h r] l1 l2 _ IH|[h r] [h' r'] l|l1 l2 l3 _ IH1 _ IH2].
  - done.
  - rewrite !weight_cons, IH. done.
  - rewrite !weight_cons. repeat case_decide; lia.
  - congruence.
Qed.

(** On entries with sorted problem types the two sums agree. *)
Lemma eweight_weight pt (l : iteration) :
  (forall h r, (h, r) ∈ l -> Sorted string_le (ProblemTypes r)) ->
  eweight pt l = weight pt l.
Proof.
  induction l as [|[h r] l IH]; intros Hs; [done|].
  rewrite eweight_cons, weight_cons, IH.
  - pose proof (eligible_sorted pt r (Hs h r ltac:(left))) as He.
    destruct (eligible pt r); case_decide; try done.
    + exfalso. by apply H, He.
    + apply He in H. done.
  - intros h' r' Hin. apply (Hs h'). by right.
Qed.

(** The first loop computes the sum, wrapped to 64 bits. *)
Lemma totalWeight_from pt (l : iteration) s :
  goint.in_range s ->
  foldl (fun total he =>
           if eligible pt he.2 then goint.add total (Capacity he.2) else total)
    s l
  = goint.wrap (s + eweight pt l).
Proof.
  revert s. induction l as [|[h r] l IH]; intros s Hs.
  - cbn [foldl]. change (eweight pt []) with 0.
    rewrite Z.add_0_r. symmetry. by apply wrap_id.
  - cbn [foldl snd]. rewrite eweight_cons. destruct (eligible pt r).
    + rewrite IH by apply wrap_in_range. unfold goint.add.
      rewrite wrap_add_l. f_equal. lia.
    + by rewrite IH.
Qed.

Lemma totalWeight_wrap pt l : totalWeight pt l = goint.wrap (eweight pt l).
Proof.
  unfold totalWeight. rewrite totalWeight_from; [done|].
  unfold goint.in_range, goint.min_int, goint.max_int. lia.
Qed.

Lemma totalWeight_perm pt l1 l2 :
  l1 ≡ₚ l2 -> totalWeight pt l1 = totalWeight pt l2.
Proof. intros H. by rewrite !totalWeight_wrap, (eweight_perm pt l1 l2 H). Qed.

(** ** [Assign]: the walk *)

Lemma walk_cons pt p s h r l :
  walk pt p s ((h, r) :: l)
  = if p <? (if eligible pt r then goint.add s (Capacity r) else s)
    then Some h
    else walk pt p (if eligible pt r then goint.add s (Capacity r) else s) l.
Proof. reflexivity. Qed.

(** Whatever the numbers are, a host that the walk returns is one of the
    entries. *)
Lemma walk_elem_of pt p s l h :
  walk pt p s l = Some h -> exists r, (h, r) ∈ l.
Proof.
  revert s. induction l as [|[h0 r0] l IH]; intros s; [done|].
  rewrite walk_cons. destruct (p <? _).
  - intros [= <-]. exists r0. by left.
  - intros [r Hr]%IH. exists r. by right.
Qed.

(** From a skipped weight that the draw has reached, a host that the walk
    returns passed the test of [eligible]. *)
Lemma walk_eligible pt p s l h :
  s <= p -> walk pt p s l = Some h ->
  exists r, (h, r) ∈ l /\ eligible pt r = true.
Proof.
  revert s. induction l as [|[h0 r0] l IH]; intros s Hs; [done|].
  rewrite walk_cons. destruct (eligible pt r0) eqn:He.
  - destruct (Z.ltb_spec p (goint.add s (Capacity r0))).
    + intros [= <-]. exists r0. split; [by left|done].
    + intros (r & Hr & ?)%IH; [|done]. exists r. split; [by right|done].
  - destruct (Z.ltb_spec p s); [lia|].
    intros (r & Hr & ?)%IH; [|done]. exists r. split; [by right|done].
Qed.

(** A walk that returns no host has skipped the whole weight without
    passing the draw. *)
Lemma walk_None pt p s (l : iteration) :
  s <= p -> walk pt p s l = None ->
  foldl (fun total he =>
           if eligible pt he.2 then goint.add total (Capacity he.2) else total)
    s l <= p.
Proof.
  revert s. induction l as [|[h r] l IH]; intros s Hs; [done|].
  rewrite walk_cons. cbn [foldl snd].
  destruct (Z.ltb_spec p (if eligible pt r then goint.add s (Capacity r) else s));
    [done|].
  by apply IH.
Qed.

Lemma eweight_nonneg pt (l : iteration) :
  (forall h r, (h, r) ∈ l -> eligible pt r = true -> 0 <= Capacity r) ->
  0 <= eweight pt l.
Proof.
  induction l as [|[h r] l IH]; intros Hc; [done|].
  rewrite eweight_cons.
  assert (0 <= eweight pt l).
  { apply IH. intros h' r' Hin. apply (Hc h'). by right. }
  destruct (eligible pt r) eqn:He; [|done].
  pose proof (Hc h r ltac:(left) He). lia.
Qed.

Lemma weights_fit_tail pt s h r l :
  weights_fit pt s ((h, r) :: l) ->
  weights_fit pt (if eligible pt r then s + Capacity r else s) l
  /\ (if eligible pt r then goint.add s (Capacity r) else s)
     = (if eligible pt r then s + Capacity r else s)
  /\ (eligible pt r = true -> 0 <= Capacity r).
Proof.
  intros (Hc & Hs & Hmax). rewrite eweight_cons in Hmax.
  assert (forall h' r', (h', r') ∈ l -> eligible pt r' = true -> 0 <= Capacity r')
    as Hc'.
  { intros h' r' Hin. apply (Hc h'). by right. }
  pose proof (eweight_nonneg pt l Hc') as Hl.
  destruct (eligible pt r) eqn:He.
  - pose proof (Hc h r ltac:(left) He) as Hr.
    split_and!; [split_and!; [done|lia|lia]| |done].
    unfold goint.add. apply wrap_id.
    unfold goint.in_range, goint.min_int, goint.max_int in *. lia.
  - split_and!; [split_and!; [done|lia|lia]|done|done].
Qed.

(** With capacities that are not negative and sums that fit, the walk
    returns the host whose share of the weights holds the draw. *)
Lemma walk_share pt p s (l : iteration) h :
  weights_fit pt s l -> s <= p ->
  walk pt p s l = Some h
  <-> exists l1 r l2, l = l1 ++ (h, r) :: l2 /\ eligible pt r = true
        /\ s + eweight pt l1 <= p < s + eweight pt l1 + Capacity r.
Proof.
  revert s. induction l as [|[h0 r0] l IH]; intros s Hfit Hs.
  - split; [done|]. intros (l1 & r & l2 & Hl & _). by destruct l1.
  - destruct (weights_fit_tail _ _ _ _ _ Hfit) as (Hfit' & Hadd & Hr0).
    destruct Hfit as (Hc & _ & _).
    rewrite walk_cons, Hadd. clear Hadd.
    destruct (Z.ltb_spec p (if eligible pt r0 then s + Capacity r0 else s))
      as [Hlt|Hge].
    + destruct (eligible pt r0) eqn:He; [|lia]. split.
      * intros [= <-]. exists [], r0, l. split; [done|]. split; [done|].
        change (eweight pt []) with 0. lia.
      * intros (l1 & r & l2 & Hl & Her & Hp).
        destruct l1 as [|[h1 r1] l1]; cbn [app] in Hl; simplify_eq; [done|].
        rewrite eweight_cons, He in Hp.
        assert (0 <= eweight pt l1); [|lia].
        apply eweight_nonneg. intros h' r' Hin. apply (Hc h').
        right. apply elem_of_app. by left.
    + rewrite IH; [|done|by destruct (eligible pt r0); lia]. split.
      * intros (l1 & r & l2 & -> & Her & Hp).
        exists ((h0, r0) :: l1), r, l2. split; [done|]. split; [done|].
        rewrite eweight_cons. destruct (eligible pt r0); lia.
      * intros (l1 & r & l2 & Hl & Her & Hp).
        destruct l1 as [|[h1 r1] l1]; cbn [app] in Hl; simplify_eq.
        { change (eweight pt []) with 0 in Hp. rewrite Her in Hge. lia. }
        exists l1, r, l2. split; [done|]. split; [done|].
        rewrite eweight_cons in Hp. destruct (eligible pt r1); lia.
Qed.

(** A draw below the total weight is in some host's share. *)
Lemma walk_total pt p s (l : iteration) :
  weights_fit pt s l -> s <= p < s + eweight pt l ->
  exists h, walk pt p s l = Some h.
Proof.
  revert s. induction l as [|[h0 r0] l IH]; intros s Hfit Hp.
  - change (eweight pt []) with 0 in Hp. lia.
  - destruct (weights_fit_tail _ _ _ _ _ Hfit) as (Hfit' & Hadd & Hr0).
    rewrite walk_cons, Hadd. rewrite eweight_cons in Hp.
    destruct (Z.ltb_spec p (if eligible pt r0 then s + Capacity r0 else s));
      [by eexists|].
    apply IH; [done|]. destruct (eligible pt r0); lia.
Qed.

(** A key occurs once in an enumeration of a map. *)
Lemma split_unique (l1 l1' l2 l2' : iteration) h r r' :
  NoDup (l1 ++ (h, r) :: l2).*1 ->
  l1 ++ (h, r) :: l2 = l1' ++ (h, r') :: l2' ->
  l1 = l1' /\ r = r'.
Proof.
  revert l1'. induction l1 as [|[h1 r1] l1 IH]; intros l1' Hnd Heq.
  - destruct l1' as [|[h1' r1'] l1']; simplify_eq/=; [done|].
    exfalso. apply NoDup_cons in Hnd as [Hnin _]. apply Hnin.
    rewrite fmap_app. apply elem_of_app. right. by left.
  - destruct l1' as [|[h1' r1'] l1']; simplify_eq/=.
    + exfalso. apply NoDup_cons in Hnd as [Hnin _]. apply Hnin.
      rewrite fmap_app. apply elem_of_app. right. by left.
    + apply NoDup_cons in Hnd as [_ Hnd].
      destruct (IH l1' Hnd) as [-> ->]; done.
Qed.

Lemma filter_ext_in {A} (P Q : A -> Prop) `{!forall x, Decision (P x)}
    `{!forall x, Decision (Q x)} (l : list A) :
  (forall x, x ∈ l -> P x <-> Q x) -> filter P l = filter Q l.
Proof.
  induction l as [|x l IH]; intros HPQ; [done|].
  rewrite !filter_cons, IH.
  - pose proof (HPQ x ltac:(left)). repeat case_decide; tauto.
  - intros y Hy. apply HPQ. by right.
Qed.

Lemma filter_all {A} (P : A -> Prop) `{!forall x, Decision (P x)} (l : list A) :
  (forall x, x ∈ l -> P x) -> filter P l = l.
Proof.
  induction l as [|x l IH]; intros HP; [done|].
  rewrite filter_cons_True by (apply HP; left). f_equal. apply IH.
  intros y Hy. apply HP. by right.
Qed.

Lemma filter_none {A} (P : A -> Prop) `{!forall x, Decision (P x)} (l : list A) :
  (forall x, x ∈ l -> ¬ P x) -> filter P l = [].
Proof.
  induction l as [|x l IH]; intros HP; [done|].
  rewrite filter_cons_False by (apply HP; left). apply IH.
  intros y Hy. apply HP. by right.
Qed.

(** The draws [0 .. n - 1] that fall in [[a, b)] number [b - a]. *)
Lemma count_interval a b n :
  0 <= a <= b -> b <= n ->
  length (filter (fun p => a <= p < b) (seqZ 0 n)) = Z.to_nat (b - a).
Proof.
  intros Hab Hbn.
  replace n with (a + ((b - a) + (n - b))) by lia.
  rewrite seqZ_app by lia. rewrite seqZ_app by lia.
  rewrite !filter_app, !length_app.
  rewrite (filter_none _ (seqZ 0 a)).
  2:{ intros x Hx%elem_of_seqZ. lia. }
  rewrite (filter_all _ (seqZ (0 + a) (b - a))).
  2:{ intros x Hx%elem_of_seqZ. lia. }
  rewrite (filter_none _ (seqZ (0 + a + (b - a)) (n - b))).
  2:{ intros x Hx%elem_of_seqZ. lia. }
  rewrite length_seqZ. cbn [length]. lia.
Qed.

(** ** [Assign] on a registry *)

Section on_a_registry.

Context (m : daycares) (order : iteration).
Hypothesis Horder : order ≡ₚ map_to_list m.

Lemma order_lookup h r : (h, r) ∈ order <-> m !! h = Some r.
Proof. rewrite Horder. apply elem_of_map_to_list. Qed.

Lemma order_NoDup : NoDup order.*1.
Proof. rewrite Horder. apply NoDup_fst_map_to_list. Qed.

Lemma order_weight pt : weight pt order = total_weight pt m.
Proof. unfold total_weight. by apply weight_perm. Qed.

Lemma order_eweight pt :
  registry_sorted m -> eweight pt order = total_weight pt m.
Proof.
  intros Hs. rewrite <- order_weight. apply eweight_weight.
  intros h r Hin%order_lookup. by apply (Hs h).
Qed.

Lemma order_totalWeight pt :
  registry_sorted m -> goint.in_range (total_weight pt m) ->
  totalWeight pt order = total_weight pt m.
Proof.
  intros Hs Hr. rewrite totalWeight_wrap, order_eweight by done.
  by apply wrap_id.
Qed.

Lemma order_weights_fit pt :
  registry_sorted m ->
  (forall h r, m !! h = Some r -> pt ∈ ProblemTypes r -> 0 <= Capacity r) ->
  total_weight pt m <= goint.max_int ->
  weights_fit pt 0 order.
Proof.
  intros Hs Hc Hmax. split_and!; [|done|by rewrite order_eweight].
  intros h r Hin%order_lookup He%eligible_elem_of. by apply (Hc h).
Qed.

End on_a_registry.

(** With a positive total that the first loop computes exactly, [Assign]
    is its second loop. *)
Lemma Assign_walk order1 order2 draw pt :
  0 < totalWeight pt order1 ->
  Assign order1 order2 draw pt
  = match walk pt draw 0 order2 with
    | Some host => Return (host, None)
    | None => Return ("", Some "failed to find daycare, please report this error")
    end.
Proof.
  intros Hpos. unfold Assign, rand.Intn.
  destruct (Z.eqb_spec (totalWeight pt order1) 0); [lia|].
  destruct (Z.leb_spec (totalWeight pt order1) 0); [lia|]. done.
Qed.

Lemma Assign_walk_Some order1 order2 draw pt host :
  0 < totalWeight pt order1 ->
  Assign order1 order2 draw pt = Return (host, None)
  <-> walk pt draw 0 order2 = Some host.
Proof.
  intros Hpos. rewrite Assign_walk by done.
  destruct (walk pt draw 0 order2); split; intros [= ->]; done.
Qed.

(** A draw below a positive total that fits Go's [int] finds a host, and
    the host serves the problem type, whatever the single capacities. *)
Lemma Assign_returns_host (m : daycares) (order1 order2 : iteration)
    (pt : string) (draw : Z) :
  order1 ≡ₚ map_to_list m ->
  order2 ≡ₚ map_to_list m ->
  registry_sorted m ->
  0 < total_weight pt m <= goint.max_int ->
  0 <= draw < total_weight pt m ->
  exists host reg,
    Assign order1 order2 draw pt = Return (host, None)
    /\ m !! host = Some reg /\ pt ∈ ProblemTypes reg.
Proof.
  intros H1 H2 Hs [Hpos Hmax] Hd.
  assert (goint.in_range (total_weight pt m)) as Hr.
  { unfold goint.in_range, goint.min_int, goint.max_int in *. lia. }
  pose proof (order_totalWeight m order1 H1 pt Hs Hr) as Ht1.
  pose proof (order_totalWeight m order2 H2 pt Hs Hr) as Ht2.
  assert (0 < totalWeight pt order1) as Hpos' by lia.
  destruct (walk pt draw 0 order2) as [host|] eqn:Hw.
  - apply (walk_eligible pt draw 0 order2 host) in Hw as Hin; [|lia].
    destruct Hin as (reg & Hin & Hel). exists host, reg. split_and!.
    + by apply Assign_walk_Some.
    + by apply (order_lookup m order2 H2).
    + by apply eligible_elem_of.
  - apply walk_None in Hw; [|lia]. fold (totalWeight pt order2) in Hw. lia.
Qed.

Lemma Assign_draws (m : daycares) (order1 order2 : iteration)
    (pt : string) (host : string) (reg : DaycareRegistration) :
  order1 ≡ₚ map_to_list m ->
  order2 ≡ₚ map_to_list m ->
  registry_sorted m ->
  (forall h r, m !! h = Some r -> pt ∈ ProblemTypes r -> 0 <= Capacity r) ->
  0 < total_weight pt m <= goint.max_int ->
  m !! host = Some reg -> pt ∈ ProblemTypes reg ->
  Z.of_nat (draws_for order1 order2 pt host (total_weight pt m))
  = Capacity reg.
Proof.
  intros H1 H2 Hs Hc [Hpos Hmax] Hm Hin.
  assert (goint.in_range (total_weight pt m)) as Hr.
  { unfold goint.in_range, goint.min_int, goint.max_int in *. lia. }
  pose proof (order_totalWeight m order1 H1 pt Hs Hr) as Ht.
  pose proof (order_eweight m order2 H2 pt Hs) as He.
  pose proof (order_weights_fit m order2 H2 pt Hs Hc Hmax) as Hfit.
  assert (0 < totalWeight pt order1) as Hpos' by lia.
  apply (order_lookup m order2 H2) in Hm as Ho.
  apply list_elem_of_split in Ho as (l1 & l2 & Hl).
  assert (eligible pt reg = true) as Hel.
  { apply eligible_sorted; [by apply (Hs host)|done]. }
  pose proof (order_NoDup m order2 H2) as Hnd.
  destruct Hfit as (Hcap & _ & _).
  assert (0 <= eweight pt l1) as Hl1.
  { apply eweight_nonneg. intros h r Hhr. apply (Hcap h).
    rewrite Hl. apply elem_of_app. by left. }
  assert (0 <= eweight pt l2) as Hl2.
  { apply eweight_nonneg. intros h r Hhr. apply (Hcap h).
    rewrite Hl. apply elem_of_app. right. by right. }
  assert (0 <= Capacity reg) as Hcr by by apply (Hc host).
  assert (total_weight pt m = eweight pt l1 + Capacity reg + eweight pt l2)
    as Htot.
  { rewrite <- He, Hl, eweight_app, eweight_cons, Hel. lia. }
  unfold draws_for.
  rewrite (filter_ext_in _
             (fun p => eweight pt l1 <= p < eweight pt l1 + Capacity reg)).
  - rewrite count_interval by lia. lia.
  - intros p Hp%elem_of_seqZ. rewrite Assign_walk_Some by done.
    rewrite walk_share; [|by apply (order_weights_fit m)|lia]. split.
    + intros (l1' & r' & l2' & Hl' & _ & Hb).
      rewrite Hl in Hl', Hnd.
      destruct (split_unique _ _ _ _ _ _ _ Hnd Hl') as [<- <-]. lia.
    + intros Hb. exists l1, reg, l2. split_and!; [done..|lia|lia].
Qed.

(** C2, as amended.  Take a registry whose problem-type lists are sorted,
    as [Insert] leaves them, and whose total weight for the problem type
    is positive and fits Go's [int].  Then for every draw in [[0, total)]
    [Assign] returns a host of the registry that serves the problem type,
    never the error of its last line; and if no host that serves the
    problem type has a negative capacity, each of them is returned for
    exactly as many of the draws as its capacity says.  This holds
    whatever orders the two loops follow. *)
Theorem Assign_weighted (m : daycares) (order1 order2 : iteration)
    (pt : string) :
  order1 ≡ₚ map_to_list m ->
  order2 ≡ₚ map_to_list m ->
  registry_sorted m ->
  0 < total_weight pt m <= goint.max_int ->
  (forall draw, 0 <= draw < total_weight pt m ->
     exists host reg,
       Assign order1 order2 draw pt = Return (host, None)
       /\ m !! host = Some reg /\ pt ∈ ProblemTypes reg)
  /\ ((forall h r, m !! h = Some r -> pt ∈ ProblemTypes r -> 0 <= Capacity r) ->
      forall host reg,
        m !! host = Some reg -> pt ∈ ProblemTypes reg ->
        Z.of_nat (draws_for order1 order2 pt host (total_weight pt m))
        = Capacity reg).
Proof.
  intros H1 H2 Hs Ht. split.
  - intros draw Hd. by apply Assign_returns_host.
  - intros Hc host reg Hm Hin. by apply Assign_draws.
Qed.

Lemma weight_none pt (l : iteration) :
  (forall h r, (h, r) ∈ l -> pt ∉ ProblemTypes r) -> weight pt l = 0.
Proof.
  induction l as [|[h r] l IH]; intros Hn; [done|].
  rewrite weight_cons, IH.
  - rewrite decide_False; [done|]. apply (Hn h). by left.
  - intros h' r' Hin. apply (Hn h'). by right.
Qed.

Lemma total_weight_none pt (m : daycares) :
  (forall h r, m !! h = Some r -> pt ∉ ProblemTypes r) -> total_weight pt m = 0.
Proof.
  intros Hn. apply weight_none. intros h r Hin%elem_of_map_to_list.
  by apply (Hn h).
Qed.

(** Whatever the capacities are, a problem type that no entry lists is
    refused. *)
Lemma Assign_unknown (order1 order2 : iteration) draw pt :
  (forall h r, (h, r) ∈ order1 -> pt ∉ ProblemTypes r) ->
  Assign order1 order2 draw pt = Return ("", Some "no eligible daycare found").
Proof.
  intros Hn. unfold Assign.
  assert (eweight pt order1 = 0) as He.
  { induction order1 as [|[h r] l IH]; [done|]. rewrite eweight_cons, IH.
    - destruct (eligible pt r) eqn:Hel; [|done].
      apply eligible_elem_of in Hel. exfalso. apply (Hn h r); [by left|done].
    - intros h' r' Hin. apply (Hn h'). by right. }
  rewrite totalWeight_wrap, He. reflexivity.
Qed.

Lemma total_weight_bounds pt (m : daycares) h r :
  registry_sorted m ->
  (forall h r, m !! h = Some r -> pt ∈ ProblemTypes r -> 0 <= Capacity r) ->
  m !! h = Some r -> pt ∈ ProblemTypes r ->
  Capacity r <= total_weight pt m.
Proof.
  intros Hs Hc Hm Hin.
  pose proof (order_weights_fit m (map_to_list m) (reflexivity _) pt Hs Hc) as Hfit.
  rewrite <- (order_eweight m (map_to_list m) (reflexivity _) pt Hs) in *.
  apply elem_of_map_to_list in Hm as Ho.
  apply list_elem_of_split in Ho as (l1 & l2 & Hl).
  assert (forall h r, (h, r) ∈ map_to_list m -> eligible pt r = true ->
                      0 <= Capacity r) as Hcap.
  { intros h' r' Hin'%elem_of_map_to_list He%eligible_elem_of. by apply (Hc h'). }
  assert (eligible pt r = true) as Hel.
  { apply eligible_sorted; [by apply (Hs h)|done]. }
  rewrite Hl in Hcap |- *. rewrite eweight_app, eweight_cons, Hel.
  assert (0 <= eweight pt l1).
  { apply eweight_nonneg. intros h' r' Hhr. apply (Hcap h').
    apply elem_of_app. by left. }
  assert (0 <= eweight pt l2); [|lia].
  apply eweight_nonneg. intros h' r' Hhr. apply (Hcap h').
  apply elem_of_app. right. by right.
Qed.

(** C6, as amended.  Take a registry whose problem-type lists are sorted
    and whose total weight for the problem type fits Go's [int].  Then
    [Assign] returns the error "no eligible daycare found" if and only if
    the total weight is zero, and it returns that error for a problem type
    that no host serves.  If moreover no host that serves the problem type
    has a negative capacity and the random generator keeps its contract,
    [Assign] returns a host name and no error as soon as one host with a
    positive capacity serves the problem type. *)
Theorem Assign_no_eligible_iff (m : daycares) (order1 order2 : iteration)
    (draw : Z) (pt : string) :
  order1 ≡ₚ map_to_list m ->
  order2 ≡ₚ map_to_list m ->
  registry_sorted m ->
  goint.in_range (total_weight pt m) ->
  (Assign order1 order2 draw pt = Return ("", Some "no eligible daycare found")
   <-> total_weight pt m = 0)
  /\ ((forall h r, m !! h = Some r -> pt ∉ ProblemTypes r) ->
      Assign order1 order2 draw pt
      = Return ("", Some "no eligible daycare found"))
  /\ ((forall h r, m !! h = Some r -> pt ∈ ProblemTypes r -> 0 <= Capacity r) ->
      (0 < total_weight pt m -> 0 <= draw < total_weight pt m) ->
      (exists h r, m !! h = Some r /\ pt ∈ ProblemTypes r /\ 0 < Capacity r) ->
      exists host, Assign order1 order2 draw pt = Return (host, None)).
Proof.
  intros H1 H2 Hs Hr.
  pose proof (order_totalWeight m order1 H1 pt Hs Hr) as Ht.
  split_and!.
  - split.
    + unfold Assign. rewrite Ht.
      destruct (Z.eqb_spec (total_weight pt m) 0) as [|Hne]; [done|].
      destruct (rand.Intn draw _); [|discriminate].
      destruct (walk pt _ 0 order2); discriminate.
    + intros Hz. unfold Assign. by rewrite Ht, Hz.
  - intros Hn. apply Assign_unknown.
    intros h r Hin%(order_lookup m order1 H1). by apply (Hn h).
  - intros Hc Hdraw (h & r & Hm & Hin & Hpos).
    pose proof (total_weight_bounds pt m h r Hs Hc Hm Hin) as Hb.
    destruct (Assign_returns_host m order1 order2 pt draw)
      as (host & _ & Ha & _); auto.
    + unfold goint.in_range in Hr. lia.
    + apply Hdraw. lia.
    + by exists host.
Qed.

(** ** [Assign] after [Expire] *)

Lemma Expire_enumeration now (order0 order : iteration) (m : daycares) :
  order0 ≡ₚ map_to_list m ->
  order ≡ₚ map_to_list (Expire now order0 m) ->
  order ≡ₚ filter (fun he => ¬ stale now he.2) order0.
Proof.
  intros H0 H. apply NoDup_Permutation.
  - rewrite H. apply NoDup_map_to_list.
  - apply NoDup_filter. rewrite H0. apply NoDup_map_to_list.
  - intros [h r]. rewrite H, elem_of_map_to_list, list_elem_of_filter.
    rewrite (Expire_lookup_stale now order0 m h H0), H0, elem_of_map_to_list.
    cbn [snd]. destruct (m !! h) as [r'|]; [|by intuition].
    case_decide; split; intros; simplify_eq; intuition congruence.
Qed.

(** C3, as amended.  [Assign] itself looks at no time stamp.  On the
    registry that [Expire] leaves at the time [now], as the handlers of the
    registration endpoint call it before they read, a host that [Assign]
    returns is one that was registered at most twenty seconds before [now],
    and the total weight is the one of the entries that are not stale. *)
Theorem Assign_after_Expire (now : time.Time) (order0 : iteration)
    (m : daycares) (order1 order2 : iteration) (draw : Z) (pt : string) :
  order0 ≡ₚ map_to_list m ->
  order1 ≡ₚ map_to_list (Expire now order0 m) ->
  order2 ≡ₚ map_to_list (Expire now order0 m) ->
  (forall host, Assign order1 order2 draw pt = Return (host, None) ->
     exists reg, m !! host = Some reg /\ now - Time reg <= 2 * (10 * time.Second))
  /\ totalWeight pt order1
     = totalWeight pt (filter (fun he => ¬ stale now he.2) order0).
Proof.
  intros H0 H1 H2. split.
  - intros host Ha. unfold Assign in Ha.
    destruct (totalWeight pt order1 =? 0); [discriminate|].
    destruct (rand.Intn draw _) as [point|]; [|discriminate].
    destruct (walk pt point 0 order2) as [h|] eqn:Hw; [|discriminate].
    injection Ha as ->.
    apply walk_elem_of in Hw as [reg Hin].
    apply (Expire_enumeration now order0 order2 m H0) in H2.
    rewrite H2 in Hin. apply list_elem_of_filter in Hin as [Hlive Hin].
    rewrite H0 in Hin. apply elem_of_map_to_list in Hin.
    exists reg. split; [done|]. unfold stale in Hlive. cbn [snd] in Hlive. lia.
  - apply totalWeight_perm. by apply (Expire_enumeration now order0 order1 m).
Qed.

(** ** Capacities *)

Lemma Expire_subset now (order : iteration) (m : daycares) h r :
  Expire now order m !! h = Some r -> m !! h = Some r.
Proof.
  rewrite Expire_lookup. by destruct (existsb _ order).
Qed.

(** C8, as amended.  [Insert] stores the capacity it is handed without
    looking at it.  What keeps capacities positive is the daycare, which
    does not start unless its configured capacity is positive, so that
    every registration it builds has a positive capacity; and a registry
    whose capacities are all positive stays so under [Expire], and under
    [Insert] of a registration whose capacity is positive.  ([Assign] does
    not write to the registry.) *)
Theorem positive_capacities_preserved :
  (forall cfg now, daycare_config_ok cfg ->
     0 < Capacity (new_registration cfg now))
  /\ (forall now order m,
        positive_capacities m -> positive_capacities (Expire now order m))
  /\ (forall secret now now' reg m,
        positive_capacities m -> 0 < Capacity reg ->
        positive_capacities (Insert secret now now' reg m).2).
Proof.
  split_and!.
  - intros cfg now [_ Hc]. exact Hc.
  - intros now order m Hm h r Hl%Expire_subset. by apply (Hm h).
  - intros secret now now' reg m Hm Hc. rewrite Insert_unfold. cbn zeta.
    destruct (negb _); [exact Hm|].
    destruct (negb _); [exact Hm|].
    destruct (time.Minute <? _); [exact Hm|]. cbn [snd].
    intros h r. destruct (decide (h = Hostname reg)) as [->|Hne].
    + rewrite lookup_insert_eq. by intros [= <-].
    + rewrite lookup_insert_ne by done. apply Hm.
Qed.

(** ** The grade command *)

Lemma passed_in_full_iff commit :
  passed_in_full commit = true
  <-> exists card, Commit.ReportCard commit = Some card
        /\ ReportCard.Passed card = true
        /\ float64_eqb (Commit.Score commit) float64_one = true.
Proof.
  unfold passed_in_full. destruct (Commit.ReportCard commit) as [card|].
  - rewrite andb_true_iff. split; [by exists card|].
    by intros (card' & [= <-] & ?).
  - split; [done|]. by intros (card & ? & _).
Qed.

Section CommandGrade_facts.

Variable filepath_Join : string -> string -> string.

Lemma delete_old_removable dir order w :
  removable filepath_Join dir order (fs w) ->
  exists c, delete_old filepath_Join dir order w
            = (Returned, {| fs := removed filepath_Join dir order (fs w);
                            console := c |}).
Proof.
  revert w. induction order as [|[name text] order IH]; intros w Hr.
  - exists (console w). by destruct w.
  - cbn [removable delete_old removed foldl fst] in *.
    destruct (top_level name).
    + apply IH, Hr.
    + destruct Hr as [[x Hx] Hr]. cbn [print fs]. rewrite Hx.
      apply (IH (set_fs _ _)). exact Hr.
Qed.

Lemma write_new_returns dir order i w :
  exists c, write_new filepath_Join dir order (Some i) w
            = (Returned,
               Some {| ProblemInfo.Step := ProblemInfo.Step i;
                       ProblemInfo.Whitelist :=
                         whitelisted order (ProblemInfo.Whitelist i) |},
               {| fs := written filepath_Join dir order (fs w);
                  console := c |}).
Proof.
  revert i w. induction order as [|[name text] order IH]; intros i w.
  - exists (console w). by destruct w, i.
  - cbn [write_new written whitelisted foldl fst snd].
    destruct (top_level name).
    + apply (IH {| ProblemInfo.Step := _; ProblemInfo.Whitelist := _ |}
                (set_fs _ _)).
    + apply (IH i (set_fs _ _)).
Qed.


End CommandGrade_facts.

(** ** The checks of [Insert] at work *)

(** A registration built by a daycare carries the signature that
    [Insert] recomputes. *)
Lemma new_registration_signed cfg now :
  Signature (new_registration cfg now)
  = (ComputeSignature (Config.DaycareSecret cfg) (new_registration cfg now)).1.
Proof.
  unfold new_registration. rewrite ComputeSignature_pair.
  cbn [set_Signature Signature]. rewrite !ComputeSignature_fst.
  do 3 f_equal. apply signed_values_ext; cbn; auto.
  by rewrite Strings_idemp.
Qed.

(** The boundary of the spec: 59 seconds of drift are accepted and 61 are
    rejected, behind the clock and ahead of it. *)
Lemma Insert_drift_59_61 :
  let insert t := (Insert sample.secret sample.t0 sample.t0
                     (new_registration sample.cfg t) ∅).1.1 in
  insert (sample.t0 - 59 * time.Second) = None
  /\ insert (sample.t0 + 59 * time.Second) = None
  /\ insert (sample.t0 - 61 * time.Second) = Some "time drift is too great"
  /\ insert (sample.t0 + 61 * time.Second) = Some "time drift is too great".
Proof. vm_compute. done. Qed.

(** C1, at the input where the code leaves it.  The clock reads
    2017-07-14T02:40:00Z; the registration is dated 2400-01-01T00:00:00Z,
    carries the current version and is signed with the shared secret.
    [time.Since] saturates at the smallest duration, whose negation
    overflows to itself, so the drift compared with a minute is negative:
    [Insert] returns no error and stores the registration, although its
    time is more than 60 seconds (by some 382 years) away from the clock. *)
Theorem Insert_accepts_year_2400 :
  let reg := new_registration sample.cfg sample.t2400 in
  let r := Insert sample.secret sample.t0 sample.t0 reg ∅ in
  time.Format_RFC3339_UTC (Time reg) = "2400-01-01T00:00:00Z"
  /\ Signature reg = (ComputeSignature sample.secret reg).1
  /\ Version reg = types.Version types.CurrentVersion
  /\ 60 * time.Second < Z.abs (sample.t0 - Time reg)
  /\ time.Since sample.t0 (Time reg) = time.minDuration
  /\ goint.neg time.minDuration = time.minDuration
  /\ r.1.1 = None
  /\ r.2 !! "a.example.org" = Some (stored sample.t0 reg).
Proof. vm_compute. split_and!; done. Qed.

(** ** Inputs at which the claims as first stated fail *)

(** C2 fails as first stated: with two positive capacities that add up to
    2^63 the total weight is positive and 0 is a draw below it, but the sum
    wraps to a negative [int] and [rand.Intn] panics; and with a negative
    capacity in the registry a host of capacity 5 is returned for 2 draws,
    the total weight. *)
Lemma Assign_weighted_fails :
  (0 < total_weight "gounittest" sample.huge
   /\ 0 <= 0 < total_weight "gounittest" sample.huge
   /\ Assign (map_to_list sample.huge) (map_to_list sample.huge) 0 "gounittest"
      = Panic "invalid argument to Intn")
  /\ (0 < total_weight "gounittest" sample.negative
      /\ Capacity <$> sample.negative !! "A" = Some 5
      /\ Z.of_nat (draws_for (map_to_list sample.negative)
                     (map_to_list sample.negative) "gounittest" "A"
                     (total_weight "gounittest" sample.negative)) = 2).
Proof. vm_compute. split_and!; done. Qed.

(** C3 fails as first stated: [Assign] returns a host that registered 100
    seconds before the clock, and counts its capacity, when [Expire] has
    not run in between. *)
Lemma Assign_returns_stale_host :
  let order := map_to_list sample.aged in
  Assign order order 0 "gounittest" = Return ("A", None)
  /\ (exists reg, sample.aged !! "A" = Some reg
        /\ 2 * (10 * time.Second) < sample.later - Time reg)
  /\ totalWeight "gounittest" order = 2
  /\ totalWeight "gounittest"
       (map_to_list (Expire sample.later order sample.aged)) = 1.
Proof.
  cbn zeta. split_and!.
  - by vm_compute.
  - exists (sample.host "A" ["gounittest"] 1 sample.t0).
    split; by vm_compute.
  - by vm_compute.
  - by vm_compute.
Qed.

(** C6 fails as first stated: a host with capacity 1 serves the problem
    type and [Assign] still returns "no eligible daycare found", because
    another host's capacity of -1 cancels it; and with two positive
    capacities that add up to 2^63 it returns neither a host nor an
    error. *)
Lemma Assign_no_eligible_fails :
  (let order := map_to_list sample.cancelling in
   (exists reg, sample.cancelling !! "A" = Some reg
      /\ "gounittest" ∈ ProblemTypes reg /\ 0 < Capacity reg)
   /\ Assign order order 0 "gounittest"
      = Return ("", Some "no eligible daycare found"))
  /\ (let order := map_to_list sample.huge in
      total_weight "gounittest" sample.huge ≠ 0
      /\ Assign order order 0 "gounittest" = Panic "invalid argument to Intn").
Proof.
  split.
  - cbn zeta. split; [|by vm_compute].
    eexists. split; [by vm_compute|]. split; [|done]. by left.
  - vm_compute. split; done.
Qed.

(** C8 fails as first stated: a registration with capacity 0 that is
    signed with the shared secret is stored. *)
Lemma Insert_stores_zero_capacity :
  let reg := new_registration sample.cfg_zero sample.t0 in
  let r := Insert sample.secret sample.t0 sample.t0 reg ∅ in
  Capacity reg = 0
  /\ r.1.1 = None
  /\ Capacity <$> r.2 !! "a.example.org" = Some 0.
Proof. vm_compute. done. Qed.


(** ** The theorems at the sample inputs *)

Lemma Expire_removes_exactly_stale_witness :
  map_to_list sample.aged ≡ₚ map_to_list sample.aged
  /\ Expire sample.later (map_to_list sample.aged) sample.aged !! "A" = None
  /\ Expire sample.later (map_to_list sample.aged) sample.aged !! "B"
     = Some (sample.host "B" ["gounittest"] 1 (sample.t0 + 90 * time.Second)).
Proof.
  destruct (Expire_removes_exactly_stale sample.later
              (map_to_list sample.aged) sample.aged (reflexivity _))
    as (Hstale & Hlive & _).
  split; [reflexivity|]. split.
  - apply (Hstale "A" (sample.host "A" ["gounittest"] 1 sample.t0));
      reflexivity.
  - apply (Hlive "B"); [reflexivity|]. vm_compute. discriminate.
Defined.

Lemma Insert_frame_witness :
  Insert sample.secret sample.t0 sample.later
    (new_registration sample.cfg sample.t0) sample.aged
  = (None,
     stored sample.later (new_registration sample.cfg sample.t0),
     <["a.example.org" :=
         stored sample.later (new_registration sample.cfg sample.t0)]>
       sample.aged)
  /\ <["a.example.org" :=
         stored sample.later (new_registration sample.cfg sample.t0)]>
       sample.aged !! "A"
     = sample.aged !! "A".
Proof.
  assert (Insert sample.secret sample.t0 sample.later
            (new_registration sample.cfg sample.t0) sample.aged
          = (None,
             stored sample.later (new_registration sample.cfg sample.t0),
             <["a.example.org" :=
                 stored sample.later (new_registration sample.cfg sample.t0)]>
               sample.aged)) as Hins.
  { vm_compute. reflexivity. }
  split; [exact Hins|].
  destruct (Insert_frame _ _ _ _ _ _ _ _ Hins) as (_ & _ & Hframe).
  apply Hframe. vm_compute. discriminate.
Defined.

Lemma ComputeSignature_deterministic_witness :
  (sample.host "A" ["gotest"; "asm"] 3 (sample.t0 + 1)).(ProblemTypes)
    ≡ₚ (sample.host "A" ["asm"; "gotest"] 3 (sample.t0 + 2)).(ProblemTypes)
  /\ time.Round (sample.t0 + 1) time.Second
     = time.Round (sample.t0 + 2) time.Second
  /\ (ComputeSignature sample.secret
        (sample.host "A" ["gotest"; "asm"] 3 (sample.t0 + 1))).1
     = (ComputeSignature sample.secret
          (sample.host "A" ["asm"; "gotest"] 3 (sample.t0 + 2))).1.
Proof.
  assert ((sample.host "A" ["gotest"; "asm"] 3 (sample.t0 + 1)).(ProblemTypes)
            ≡ₚ (sample.host "A" ["asm"; "gotest"] 3 (sample.t0 + 2)).(ProblemTypes))
    as Hperm by apply perm_swap.
  assert (time.Round (sample.t0 + 1) time.Second
          = time.Round (sample.t0 + 2) time.Second) as Hround
      by (vm_compute; reflexivity).
  split; [exact Hperm|]. split; [exact Hround|].
  apply (ComputeSignature_deterministic sample.secret
           (sample.host "A" ["gotest"; "asm"] 3 (sample.t0 + 1))
           (sample.host "A" ["asm"; "gotest"] 3 (sample.t0 + 2))
           eq_refl Hperm eq_refl Hround eq_refl).
Defined.

Lemma skewed_sorted : registry_sorted sample.skewed.
Proof.
  change (map_Forall (fun _ reg => Sorted string_le (ProblemTypes reg))
            sample.skewed).
  apply (bool_decide_unpack _). vm_compute. exact I.
Defined.

Lemma skewed_nonneg pt :
  forall h r, sample.skewed !! h = Some r -> pt ∈ ProblemTypes r ->
              0 <= Capacity r.
Proof.
  intros h r Hl _. revert h r Hl.
  change (map_Forall (fun _ reg => 0 <= Capacity reg) sample.skewed).
  apply (bool_decide_unpack _). vm_compute. exact I.
Defined.

(** The spec's sixth scenario: of the four draws, three go to A and one
    to B. *)
Lemma Assign_weighted_witness :
  (registry_sorted sample.skewed
   /\ 0 < total_weight "gounittest" sample.skewed <= goint.max_int)
  /\ Z.of_nat (draws_for (map_to_list sample.skewed) (map_to_list sample.skewed)
                 "gounittest" "A" (total_weight "gounittest" sample.skewed))
     = 3
  /\ Z.of_nat (draws_for (map_to_list sample.skewed) (map_to_list sample.skewed)
                 "gounittest" "B" (total_weight "gounittest" sample.skewed))
     = 1.
Proof.
  assert (0 < total_weight "gounittest" sample.skewed <= goint.max_int) as Ht
      by (vm_compute; split; [reflexivity|discriminate]).
  destruct (Assign_weighted sample.skewed (map_to_list sample.skewed)
              (map_to_list sample.skewed) "gounittest"
              (reflexivity _) (reflexivity _) skewed_sorted Ht)
    as [_ Hdraws].
  split; [split; [exact skewed_sorted|exact Ht]|]. split.
  - apply (Hdraws (skewed_nonneg "gounittest") "A"
             (sample.host "A" ["gounittest"] 3 sample.t0));
      [reflexivity|left].
  - apply (Hdraws (skewed_nonneg "gounittest") "B"
             (sample.host "B" ["gounittest"] 1 sample.t0));
      [reflexivity|left].
Defined.

(** The spec's sixth scenario: an unknown problem type is refused. *)
Lemma Assign_no_eligible_iff_witness :
  (registry_sorted sample.skewed
   /\ goint.in_range (total_weight "unknownType" sample.skewed))
  /\ total_weight "unknownType" sample.skewed = 0
  /\ Assign (map_to_list sample.skewed) (map_to_list sample.skewed) 0
       "unknownType"
     = Return ("", Some "no eligible daycare found").
Proof.
  assert (total_weight "unknownType" sample.skewed = 0) as Hz
      by (vm_compute; reflexivity).
  assert (goint.in_range (total_weight "unknownType" sample.skewed)) as Hr
      by (rewrite Hz; split; discriminate).
  split; [split; [exact skewed_sorted|exact Hr]|]. split; [exact Hz|].
  destruct (Assign_no_eligible_iff sample.skewed (map_to_list sample.skewed)
              (map_to_list sample.skewed) 0 "unknownType"
              (reflexivity _) (reflexivity _) skewed_sorted Hr)
    as [[_ Hzero] _].
  exact (Hzero Hz).
Defined.

Lemma Assign_after_Expire_witness :
  Assign (map_to_list (Expire sample.later (map_to_list sample.aged) sample.aged))
    (map_to_list (Expire sample.later (map_to_list sample.aged) sample.aged))
    0 "gounittest"
  = Return ("B", None)
  /\ exists reg, sample.aged !! "B" = Some reg
       /\ sample.later - Time reg <= 2 * (10 * time.Second).
Proof.
  assert (Assign
            (map_to_list (Expire sample.later (map_to_list sample.aged) sample.aged))
            (map_to_list (Expire sample.later (map_to_list sample.aged) sample.aged))
            0 "gounittest"
          = Return ("B", None)) as Ha by (vm_compute; reflexivity).
  split; [exact Ha|].
  destruct (Assign_after_Expire sample.later (map_to_list sample.aged)
              sample.aged _ _ 0 "gounittest"
              (reflexivity _) (reflexivity _) (reflexivity _)) as [Hhost _].
  exact (Hhost "B" Ha).
Defined.

Lemma positive_capacities_preserved_witness :
  daycare_config_ok sample.cfg
  /\ 0 < Capacity (new_registration sample.cfg sample.t0).
Proof.
  assert (daycare_config_ok sample.cfg) as Hok
      by (split; [discriminate|reflexivity]).
  split; [exact Hok|].
  destruct positive_capacities_preserved as [Hnew _].
  exact (Hnew sample.cfg sample.t0 Hok).
Defined.


(** * Part III: further properties of the registry *)

Lemma Insert_accepts secret now now' reg m :
  acceptable secret now reg ->
  Insert secret now now' reg m
  = (None, stored now' reg, <[Hostname reg := stored now' reg]> m).
Proof.
  intros (Hs & Hv & Hd).
  assert (goint.min_int < now - Time reg) as Hlo.
  { unfold goint.min_int, time.Second in *. lia. }
  rewrite Insert_unfold. cbn zeta.
  rewrite (drift_in_range now (Time reg) Hlo).
  rewrite <- Hs, Hv, !String.eqb_refl. cbn [negb].
  destruct (time.Minute <? Z.min (Z.abs (now - Time reg)) goint.max_int) eqn:Hm;
    [|done].
  apply minute_ltb_drift in Hm. lia.
Qed.

Lemma Insert_cases secret now now' reg m :
  Insert secret now now' reg m
  = (None, stored now' reg, <[Hostname reg := stored now' reg]> m)
  \/ exists e, Insert secret now now' reg m
               = (Some e, set_ProblemTypes (sort.Strings (ProblemTypes reg)) reg, m).
Proof.
  rewrite Insert_unfold. cbn zeta.
  destruct (negb _); [right; by eexists|].
  destruct (negb _); [right; by eexists|].
  destruct (time.Minute <? _); [right; by eexists|]. by left.
Qed.

(** X1.  Every registry that [Expire] and [Insert] can produce from the
    empty map keeps each registration under its own host name, with its
    problem types sorted and its version and signature empty. *)
Theorem reachable_entries (m : daycares) (host : string)
    (reg : DaycareRegistration) :
  reachable m -> m !! host = Some reg ->
  Hostname reg = host
  /\ Sorted string_le (ProblemTypes reg)
  /\ Version reg = "" /\ Signature reg = "".
Proof.
  intros Hr. revert host reg.
  induction Hr as [|now order m Hr IH Hperm|secret now now' r m Hr IH];
    intros host reg Hl.
  - by rewrite lookup_empty in Hl.
  - apply Expire_subset in Hl. by apply IH.
  - destruct (Insert_cases secret now now' r m) as [E|[e E]];
      rewrite E in Hl; cbn [snd] in Hl; [|by apply IH].
    destruct (decide (host = Hostname r)) as [->|Hne].
    + rewrite lookup_insert_eq in Hl. injection Hl as <-. cbn.
      split_and!; auto using Strings_Sorted.
    + rewrite lookup_insert_ne in Hl by done. by apply IH.
Qed.

(** X2.  Signing and checking agree: the registration that a daycare
    builds at time [t] is accepted by a TA that holds the same secret and
    whose clock is within a minute of [t], and is stored under the
    daycare's host name with its capacity, its problem types sorted and the
    TA's time. *)
Theorem daycare_registration_accepted (cfg : Config.t) (t now now' : time.Time)
    (m : daycares) :
  Z.abs (now - t) <= 60 * time.Second ->
  Insert (Config.DaycareSecret cfg) now now' (new_registration cfg t) m
  = (None,
     {| Hostname := Config.Hostname cfg;
        ProblemTypes := sort.Strings (Config.ProblemTypes cfg);
        Capacity := Config.Capacity cfg;
        Time := now';
        Version := "";
        Signature := "" |},
     <[Config.Hostname cfg :=
         {| Hostname := Config.Hostname cfg;
            ProblemTypes := sort.Strings (Config.ProblemTypes cfg);
            Capacity := Config.Capacity cfg;
            Time := now';
            Version := "";
            Signature := "" |}]> m).
Proof.
  intros Hd.
  rewrite (Insert_accepts (Config.DaycareSecret cfg) now now'
             (new_registration cfg t) m).
  - unfold stored, new_registration. rewrite ComputeSignature_pair.
    cbn [set_Signature set_ProblemTypes Hostname ProblemTypes Capacity].
    by rewrite Strings_idemp.
  - split_and!; [apply new_registration_signed|done|done].
Qed.

(** X3.  A later registration replaces an earlier one of the same host:
    after two accepted insertions under one host name the registry is what
    the second insertion alone would have made of the first registry. *)
Theorem Insert_replaces (secret : string) (n1 n1' n2 n2' : time.Time)
    (r1 r2 r1' r2' : DaycareRegistration) (m m1 m2 : daycares) :
  Insert secret n1 n1' r1 m = (None, r1', m1) ->
  Insert secret n2 n2' r2 m1 = (None, r2', m2) ->
  Hostname r1 = Hostname r2 ->
  m2 = (Insert secret n2 n2' r2 m).2
  /\ m2 !! Hostname r2 = Some r2'
  /\ dom m2 = {[Hostname r2]} ∪ dom m.
Proof.
  intros H1 H2 Hh.
  destruct (Insert_cases secret n1 n1' r1 m) as [E1|[e E1]];
    rewrite E1 in H1; [|discriminate].
  destruct (Insert_cases secret n2 n2' r2 m1) as [E2|[e E2]];
    rewrite E2 in H2; [|discriminate].
  injection H1 as <- <-. injection H2 as <- <-.
  assert (Insert secret n2 n2' r2 m
          = (None, stored n2' r2, <[Hostname r2 := stored n2' r2]> m)) as E3.
  { revert E2. rewrite !Insert_unfold. cbn zeta.
    destruct (negb _); [discriminate|].
    destruct (negb _); [discriminate|].
    destruct (time.Minute <? _); [discriminate|]. done. }
  rewrite E3. cbn [snd]. rewrite Hh. split_and!.
  - apply insert_insert_eq.
  - apply lookup_insert_eq.
  - rewrite insert_insert_eq. apply dom_insert_L.
Qed.

(** X4.  Expiring twice is expiring once at the later time: entries that
    a first pass at [now] removed would have been removed at any later
    time as well.  In particular [Expire] is idempotent. *)
Theorem Expire_Expire (now later : time.Time) (order order' order'' : iteration)
    (m : daycares) :
  order ≡ₚ map_to_list m ->
  order' ≡ₚ map_to_list (Expire now order m) ->
  order'' ≡ₚ map_to_list m ->
  now <= later ->
  Expire later order' (Expire now order m) = Expire later order'' m.
Proof.
  intros H H' H'' Hle. apply map_eq. intros host.
  rewrite (Expire_lookup_stale later order' _ host H').
  rewrite (Expire_lookup_stale now order m host H).
  rewrite (Expire_lookup_stale later order'' m host H'').
  destruct (m !! host) as [elt|]; [|done].
  unfold stale. repeat case_decide; try done. lia.
Qed.

(** X5.  A registration that was just accepted is not expired during the
    twenty seconds that follow: the daycare has two registration intervals
    to show up again. *)
Theorem Insert_then_Expire (secret : string) (now now' t : time.Time)
    (reg reg' : DaycareRegistration) (m m' : daycares) (order : iteration) :
  Insert secret now now' reg m = (None, reg', m') ->
  order ≡ₚ map_to_list m' ->
  t - now' <= 2 * (10 * time.Second) ->
  Expire t order m' !! Hostname reg = Some reg' /\ Time reg' = now'.
Proof.
  intros Hi Ho Ht.
  destruct (Insert_cases secret now now' reg m) as [E|[e E]];
    rewrite E in Hi; [|discriminate].
  injection Hi as <- <-.
  rewrite (Expire_lookup_stale t order _ _ Ho), lookup_insert_eq.
  split; [|done]. rewrite decide_False; [done|].
  unfold stale, stored. cbn [Time]. lia.
Qed.

(** X6.  [Assign] never invents a host: whenever it returns a host name
    and no error for a draw that is not negative, that host is registered
    and lists the problem type, whatever the capacities and the orders of
    the loops are. *)
Theorem Assign_sound (m : daycares) (order1 order2 : iteration) (draw : Z)
    (pt host : string) :
  order2 ≡ₚ map_to_list m ->
  0 <= draw ->
  Assign order1 order2 draw pt = Return (host, None) ->
  exists reg, m !! host = Some reg /\ pt ∈ ProblemTypes reg.
Proof.
  intros H2 Hd Ha. unfold Assign, rand.Intn in Ha.
  destruct (totalWeight pt order1 =? 0); [discriminate|].
  destruct (totalWeight pt order1 <=? 0); [discriminate|].
  destruct (walk pt draw 0 order2) as [h|] eqn:Hw; [|discriminate].
  injection Ha as ->.
  apply walk_eligible in Hw as (reg & Hin & He); [|done].
  exists reg. split.
  - by apply (order_lookup m order2 H2).
  - by apply eligible_elem_of.
Qed.

(** X7.  End to end with one daycare: once the registration of a daycare
    whose configuration passed the checks of [main] has been accepted into
    an empty registry, [Assign] sends every problem type that the daycare
    is configured for to that daycare. *)
Theorem sole_daycare_assigned (cfg : Config.t) (t now now' : time.Time)
    (order1 order2 : iteration) (draw : Z) (pt : string) :
  daycare_config_ok cfg ->
  Config.Capacity cfg <= goint.max_int ->
  pt ∈ Config.ProblemTypes cfg ->
  Z.abs (now - t) <= 60 * time.Second ->
  order1 ≡ₚ map_to_list
              (Insert (Config.DaycareSecret cfg) now now'
                 (new_registration cfg t) ∅).2 ->
  order2 ≡ₚ map_to_list
              (Insert (Config.DaycareSecret cfg) now now'
                 (new_registration cfg t) ∅).2 ->
  0 <= draw < Config.Capacity cfg ->
  Assign order1 order2 draw pt = Return (Config.Hostname cfg, None).
Proof.
  intros [_ Hcap] Hmax Hpt Hd.
  rewrite (Insert_accepts (Config.DaycareSecret cfg) now now'
             (new_registration cfg t) ∅)
    by (split_and!; [apply new_registration_signed|done|done]).
  cbn [snd]. rewrite insert_empty, map_to_list_singleton.
  intros H1%Permutation_singleton_r H2%Permutation_singleton_r Hdraw. subst.
  assert (eligible pt (stored now' (new_registration cfg t)) = true) as He.
  { apply eligible_sorted; [apply Strings_Sorted|].
    unfold stored. cbn [ProblemTypes]. rewrite Strings_Permutation.
    unfold new_registration. rewrite ComputeSignature_pair.
    cbn [set_Signature set_ProblemTypes ProblemTypes].
    by rewrite Strings_Permutation. }
  assert (Capacity (stored now' (new_registration cfg t)) = Config.Capacity cfg)
    as Hc by reflexivity.
  assert (Hostname (new_registration cfg t) = Config.Hostname cfg)
    as Hh by reflexivity.
  assert (goint.add 0 (Config.Capacity cfg) = Config.Capacity cfg) as Hadd.
  { unfold goint.add. apply wrap_id.
    unfold goint.in_range, goint.min_int, goint.max_int in *. lia. }
  unfold Assign, rand.Intn, totalWeight. cbn [foldl snd walk].
  rewrite He, Hc, Hadd, Hh.
  destruct (Z.eqb_spec (Config.Capacity cfg) 0); [lia|].
  destruct (Z.leb_spec (Config.Capacity cfg) 0); [lia|].
  destruct (Z.ltb_spec draw (Config.Capacity cfg)); [done|lia].
Qed.

(** X8.  [Insert] reports the first check that fails, in the order
    signature, version, drift, and on every error it hands the
    registration back with its problem types sorted and nothing else
    changed.  (The drift is the distance to the clock as long as the
    registration is less than 2^63 nanoseconds ahead of it.) *)
Theorem Insert_reports_first_failure (secret : string) (now now' : time.Time)
    (reg : DaycareRegistration) (m : daycares) :
  goint.min_int < now - Time reg ->
  ((ComputeSignature secret reg).1 ≠ Signature reg ->
   (Insert secret now now' reg m).1.1
   = Some ("signature mismatch: computed " +:+ (ComputeSignature secret reg).1
           +:+ " but found " +:+ Signature reg))
  /\ ((ComputeSignature secret reg).1 = Signature reg ->
      Version reg ≠ "1.9.6" ->
      (Insert secret now now' reg m).1.1
      = Some ("version mismatch: daycare is " +:+ Version reg
              +:+ ", but ta is 1.9.6"))
  /\ ((ComputeSignature secret reg).1 = Signature reg ->
      Version reg = "1.9.6" ->
      60 * time.Second < Z.abs (now - Time reg) ->
      (Insert secret now now' reg m).1.1 = Some "time drift is too great")
  /\ ((Insert secret now now' reg m).1.1 ≠ None ->
      (Insert secret now now' reg m).1.2
      = {| Hostname := Hostname reg;
           ProblemTypes := sort.Strings (ProblemTypes reg);
           Capacity := Capacity reg;
           Time := Time reg;
           Version := Version reg;
           Signature := Signature reg |}
      /\ (Insert secret now now' reg m).2 = m).
Proof.
  intros Hlo. rewrite Insert_unfold. cbn zeta.
  rewrite (drift_in_range now (Time reg) Hlo).
  pose proof (minute_ltb_drift (now - Time reg)) as Hd.
  change (types.Version types.CurrentVersion) with "1.9.6".
  destruct (String.eqb_spec (ComputeSignature secret reg).1 (Signature reg))
    as [Hs|Hs]; cbn [negb fst snd].
  2:{ split_and!; try done. }
  destruct (String.eqb_spec (Version reg) "1.9.6") as [Hv|Hv]; cbn [negb fst snd].
  2:{ split_and!; try done. }
  destruct (time.Minute <? Z.min (Z.abs (now - Time reg)) goint.max_int);
    cbn [fst snd].
  - split_and!; try done.
  - split_and!; try done.
    intros _ _ Hlt. apply Hd in Hlt. discriminate.
Qed.

(** X9.  The test by which [Assign] decides that a daycare serves a
    problem type, a binary search followed by a comparison, never accepts
    a problem type that is not in the list, and on a sorted list it
    accepts every one that is. *)
Theorem eligible_iff_member (pt : string) (elt : DaycareRegistration) :
  (eligible pt elt = true -> pt ∈ ProblemTypes elt)
  /\ (Sorted string_le (ProblemTypes elt) ->
      pt ∈ ProblemTypes elt -> eligible pt elt = true)
  /\ (sort.SearchStrings (ProblemTypes elt) pt <= length (ProblemTypes elt))%nat.
Proof.
  split_and!.
  - apply eligible_elem_of.
  - intros Hs Hin. by apply eligible_sorted.
  - unfold sort.SearchStrings, sort.Search.
    generalize (length (ProblemTypes elt)) at 1 as b.
    generalize (fun i : nat =>
                  match ProblemTypes elt !! i with
                  | Some s => string_leb pt s
                  | None => true
                  end) as f.
    intros f b.
    assert (forall i j, (i <= j)%nat ->
              (sort.Search_loop b f i j <= j)%nat) as Hb; [|apply Hb; lia].
    induction b as [|b IH]; intros i j Hij; [done|].
    rewrite Search_loop_S. destruct (Nat.ltb_spec i j) as [Hlt|]; [|done].
    pose proof (half_between i j Hlt).
    destruct (negb _); [apply IH; lia|].
    etrans; [apply IH; lia|lia].
Qed.

(** X10.  Go's random order of map iteration does not change what the
    first loop of [Assign] computes, wrap-around included; so whether
    [Assign] answers "no eligible daycare found", and whether
    [rand.Intn] panics, does not depend on it. *)
Theorem Assign_total_order_independent (order1 order1' order2 order2' : iteration)
    (draw : Z) (pt : string) :
  order1 ≡ₚ order1' ->
  totalWeight pt order1 = totalWeight pt order1'
  /\ (Assign order1 order2 draw pt = Return ("", Some "no eligible daycare found")
      <-> Assign order1' order2' draw pt
          = Return ("", Some "no eligible daycare found"))
  /\ (Assign order1 order2 draw pt = Panic "invalid argument to Intn"
      <-> Assign order1' order2' draw pt = Panic "invalid argument to Intn").
Proof.
  intros Hp. pose proof (totalWeight_perm pt _ _ Hp) as Ht.
  split; [done|]. unfold Assign, rand.Intn. rewrite <- Ht.
  destruct (totalWeight pt order1 =? 0); [done|].
  destruct (totalWeight pt order1 <=? 0); [done|].
  destruct (walk pt draw 0 order2), (walk pt draw 0 order2'); done.
Qed.

(** * Part IV: further properties of the grade command *)

Section CommandGrade_more.

Variable filepath_Join : string -> string -> string.

Lemma removed_lookup dir order f p :
  removed filepath_Join dir order f !! p
  = if decide (p ∈ removed_paths filepath_Join dir order) then None else f !! p.
Proof.
  unfold removed, removed_paths. revert f.
  induction order as [|[name text] order IH]; intros f.
  - cbn. by rewrite decide_False by apply not_elem_of_nil.
  - cbn [foldl fst fmap list_fmap List.filter]. rewrite IH.
    destruct (top_level name); cbn [negb]; [done|].
    rewrite fmap_cons. destruct (decide (p = filepath_Join dir name)) as [->|Hne].
    + rewrite lookup_delete_eq. rewrite (decide_True (P:=_ ∈ _ :: _)) by left.
      by case_decide.
    + rewrite lookup_delete_ne by done.
      repeat case_decide; try done.
      * exfalso. apply H0. by right.
      * exfalso. apply elem_of_cons in H0 as [?|?]; done.
Qed.

Lemma written_lookup_other dir order f p :
  p ∉ written_paths filepath_Join dir order ->
  written filepath_Join dir order f !! p = f !! p.
Proof.
  unfold written, written_paths. revert f.
  induction order as [|[name text] order IH]; intros f Hp; [done|].
  cbn [foldl fst snd]. rewrite fmap_cons, fmap_cons in Hp.
  apply not_elem_of_cons in Hp as [Hne Hp].
  rewrite IH by done. by rewrite lookup_insert_ne.
Qed.



(** The command when the step advances. *)
Lemma CommandGrade_advances dir problem commit dotfile new old info
    oldOrder newOrder w :
  passed_in_full commit = true ->
  DotFile.Problems dotfile !! Problem.Unique problem = Some info ->
  removable filepath_Join dir oldOrder (fs w) ->
  exists c,
    CommandGrade filepath_Join dir problem commit dotfile (Some new) (Some old)
      oldOrder newOrder w
    = (Returned,
       {| fs := <[DotFile.Path dotfile :=
                    DotFileJSON (advanced problem dotfile info newOrder)]>
                  (written filepath_Join dir newOrder
                     (removed filepath_Join dir oldOrder (fs w)));
          console := c |}).
Proof.
  intros Hp Hinfo Hrem. unfold CommandGrade. rewrite Hp, Hinfo.
  destruct (delete_old_removable filepath_Join dir oldOrder
              (print (Log ("moving to step "
                           +:+ strconv.Itoa (ProblemStep.Step new)))
                 (print (Log ("step " +:+ strconv.Itoa (Commit.Step commit)
                              +:+ " passed")) w)) Hrem) as [c1 ->].
  destruct (write_new_returns filepath_Join dir newOrder info
              {| fs := removed filepath_Join dir oldOrder (fs w);
                 console := c1 |}) as [c2 Hw].
  cbn [fs print] in Hw |- *. rewrite Hw. by eexists.
Qed.


(** X12.  When the step advances, the files of the old step below the top
    level are gone unless the new step wrote them again, and every other
    file that the new step does not write, top-level files of the old step
    included, is left as it was. *)
Theorem CommandGrade_advance_frame (dir : string) (problem : Problem.t)
    (commit : Commit.t) (dotfile : DotFile.t) (new old : ProblemStep.t)
    (info : ProblemInfo.t) (oldOrder newOrder : list (string * string))
    (w : world) (p : string) :
  passed_in_full commit = true ->
  DotFile.Problems dotfile !! Problem.Unique problem = Some info ->
  removable filepath_Join dir oldOrder (fs w) ->
  p ≠ DotFile.Path dotfile ->
  p ∉ written_paths filepath_Join dir newOrder ->
  fs (CommandGrade filepath_Join dir problem commit dotfile (Some new)
        (Some old) oldOrder newOrder w).2 !! p
  = if decide (p ∈ removed_paths filepath_Join dir oldOrder) then None else fs w !! p.
Proof.
  intros Hp Hinfo Hrem Hdot Hnew.
  destruct (CommandGrade_advances dir problem commit dotfile new old info
              oldOrder newOrder w Hp Hinfo Hrem) as [c ->].
  cbn [snd fs]. rewrite lookup_insert_ne by done.
  rewrite written_lookup_other by done. apply removed_lookup.
Qed.

Lemma delete_old_only_deletes dir order w p :
  fs (delete_old filepath_Join dir order w).2 !! p = None
  \/ fs (delete_old filepath_Join dir order w).2 !! p = fs w !! p.
Proof.
  revert w. induction order as [|[name text] order IH]; intros w; [by right|].
  cbn [delete_old]. destruct (top_level name); [apply IH|].
  cbn [print fs]. destruct (fs w !! filepath_Join dir name) eqn:Hl.
  - destruct (IH (set_fs (delete (filepath_Join dir name) (fs w))
                    (print (Log ("deleting " +:+ filepath_Join dir name
                                 +:+ " from old step")) w))) as [H|H];
      [by left|]. rewrite H. cbn [set_fs fs].
    destruct (decide (p = filepath_Join dir name)) as [->|Hne].
    + left. apply lookup_delete_eq.
    + right. by apply lookup_delete_ne.
  - by right.
Qed.

Lemma delete_old_not_removable dir order w :
  ¬ removable filepath_Join dir order (fs w) ->
  (delete_old filepath_Join dir order w).1 = Exited.
Proof.
  revert w. induction order as [|[name text] order IH]; intros w Hn.
  - by destruct Hn.
  - cbn [delete_old removable] in *. destruct (top_level name); [by apply IH|].
    cbn [print fs]. destruct (fs w !! filepath_Join dir name) eqn:Hl; [|done].
    apply (IH (set_fs _ _)). cbn [set_fs fs]. intros Hr. apply Hn.
    split; [by eexists|done].
Qed.

(** X13.  When a file of the old step below the top level is missing, the
    command ends through [log.Fatalf]: it writes no file and does not save
    the dotfile; what it removed before it met the missing file stays
    removed. *)
Theorem CommandGrade_missing_file (dir : string) (problem : Problem.t)
    (commit : Commit.t) (dotfile : DotFile.t) (new old : ProblemStep.t)
    (oldOrder newOrder : list (string * string)) (w : world) (p : string) :
  passed_in_full commit = true ->
  ¬ removable filepath_Join dir oldOrder (fs w) ->
  let r := CommandGrade filepath_Join dir problem commit dotfile (Some new)
             (Some old) oldOrder newOrder w in
  r.1 = Exited /\ (fs r.2 !! p = None \/ fs r.2 !! p = fs w !! p).
Proof.
  intros Hp Hn. cbn zeta. unfold CommandGrade. rewrite Hp.
  set (w1 := print _ (print _ w)).
  assert (fs w1 = fs w) as Hfs by done.
  pose proof (delete_old_not_removable dir oldOrder w1) as He.
  pose proof (delete_old_only_deletes dir oldOrder w1 p) as Hd.
  rewrite Hfs in He, Hd. specialize (He Hn).
  destruct (delete_old filepath_Join dir oldOrder w1) as [e w2].
  cbn [fst snd] in *. subst e. done.
Qed.

End CommandGrade_more.

(** * Part V: further properties of the server's helpers *)

(** ** [unBase64] *)

Lemma decodeMap_digit x :
  0 <= x < 64 -> base64.decodeMap (base64.digit x) = Some x.
Proof.
  intros Hx.
  assert (forallb (fun x => bool_decide (base64.decodeMap (base64.digit x) = Some x))
            (seqZ 0 64) = true) as Hall by (vm_compute; reflexivity).
  rewrite forallb_forall in Hall.
  eapply bool_decide_eq_true_1, Hall, list_elem_of_In, elem_of_seqZ. lia.
Qed.

Lemma decode_digit v rest q :
  0 <= v < 64 ->
  base64.decode (base64.digit v :: rest) q
  = if (length q =? 3)%nat
    then (fun tail => base64.quantum_bytes (q ++ [v]) ++ tail)
           <$> base64.decode rest []
    else base64.decode rest (q ++ [v]).
Proof. intros Hv. cbn [base64.decode]. by rewrite decodeMap_digit. Qed.

Lemma quantum_bytes_4 a b c d :
  base64.quantum_bytes [a; b; c; d]
  = let val := a * 262144 + b * 4096 + c * 64 + d in
    [val / 65536 mod 256; val / 256 mod 256; val mod 256].
Proof. reflexivity. Qed.

Lemma quantum_bytes_3 a b c :
  base64.quantum_bytes [a; b; c]
  = let val := a * 262144 + b * 4096 + c * 64 + 0 in
    [val / 65536 mod 256; val / 256 mod 256].
Proof. reflexivity. Qed.

Lemma quantum_bytes_2 a b :
  base64.quantum_bytes [a; b]
  = let val := a * 262144 + b * 4096 + 0 * 64 + 0 in
    [val / 65536 mod 256].
Proof. reflexivity. Qed.

Lemma decode_encode_groups (b : list Z) :
  Forall (fun x => 0 <= x < 256) b ->
  base64.decode (base64.encode_groups b) [] = Some b.
Proof.
  assert (forall n (b : list Z), (length b <= n)%nat ->
            Forall (fun x => 0 <= x < 256) b ->
            base64.decode (base64.encode_groups b) [] = Some b) as H;
    [|by apply (H (length b))].
  clear b. induction n as [|n IH]; intros b Hlen Hb.
  { destruct b; [done|cbn in Hlen; lia]. }
  destruct b as [|x [|y [|z rest]]]; [done|..].
  - apply Forall_cons in Hb as [Hx _].
    cbn [base64.encode_groups]. cbv zeta.
    rewrite !decode_digit by (Z.div_mod_to_equations; lia).
    cbn [length Nat.eqb app]. cbn [base64.decode].
    change (base64.decodeMap "=") with (@None Z).
    change (base64.is_newline "=") with false.
    change (Ascii.eqb "=" "=") with true.
    cbn [base64.skip_newlines]. change (base64.is_newline "=") with false.
    cbn iota. change (Ascii.eqb "=" "=") with true. cbn iota.
    rewrite quantum_bytes_2. cbv zeta. do 2 f_equal.
    Z.div_mod_to_equations; lia.
  - apply Forall_cons in Hb as [Hx Hb]. apply Forall_cons in Hb as [Hy _].
    cbn [base64.encode_groups]. cbv zeta.
    rewrite !decode_digit by (Z.div_mod_to_equations; lia).
    cbn [length Nat.eqb app]. cbn [base64.decode].
    change (base64.decodeMap "=") with (@None Z).
    change (base64.is_newline "=") with false.
    change (Ascii.eqb "=" "=") with true.
    cbn [base64.skip_newlines]. cbn iota.
    rewrite quantum_bytes_3. cbv zeta. f_equal.
    f_equal; [|f_equal]; Z.div_mod_to_equations; lia.
  - apply Forall_cons in Hb as [Hx Hb]. apply Forall_cons in Hb as [Hy Hb].
    apply Forall_cons in Hb as [Hz Hb].
    cbn [base64.encode_groups]. cbv zeta.
    rewrite !decode_digit by (Z.div_mod_to_equations; lia).
    cbn [length Nat.eqb app].
    rewrite IH by (done || cbn [length] in Hlen; lia).
    cbn [fmap option_fmap option_map]. rewrite quantum_bytes_4. cbv zeta.
    f_equal. cbn [app].
    f_equal; [|f_equal; [|f_equal]]; Z.div_mod_to_equations; lia.
Qed.

Lemma string_of_bytes_of_string s : string_of_bytes (bytes_of_string s) = s.
Proof.
  unfold string_of_bytes, bytes_of_string.
  induction s as [|c s IH]; [done|].
  cbn [list_ascii_of_string fmap list_fmap string_of_list_ascii].
  rewrite N2Z.id, ascii_N_embedding. f_equal. exact IH.
Qed.

Lemma bytes_of_string_bounded s :
  Forall (fun x => 0 <= x < 256) (bytes_of_string s).
Proof.
  unfold bytes_of_string. apply Forall_fmap, Forall_forall. intros c _. cbn.
  pose proof (N_ascii_bounded c). lia.
Qed.

(** X14.  A secret written in base64 in the configuration is read back as
    the bytes it encodes: [unBase64] undoes
    [base64.StdEncoding.EncodeToString] on every string. *)
Theorem unBase64_EncodeToString (s : string) :
  base64.DecodeString (base64.EncodeToString (bytes_of_string s))
  = Some (bytes_of_string s)
  /\ unBase64 (base64.EncodeToString (bytes_of_string s)) = s.
Proof.
  assert (base64.DecodeString (base64.EncodeToString (bytes_of_string s))
          = Some (bytes_of_string s)) as Hd.
  { unfold base64.DecodeString, base64.EncodeToString.
    rewrite list_ascii_of_string_of_list_ascii.
    apply decode_encode_groups, bytes_of_string_bounded. }
  split; [done|]. unfold unBase64. rewrite Hd.
  apply string_of_bytes_of_string.
Qed.

Lemma skip_newlines_keeps (c : ascii) (l : list ascii) :
  base64.is_newline c = false -> c ∈ l -> c ∈ base64.skip_newlines l.
Proof.
  intros Hc. induction l as [|c' l IH]; intros Hin; [done|].
  cbn [base64.skip_newlines]. destruct (base64.is_newline c') eqn:Hn; [|done].
  apply IH. apply elem_of_cons in Hin as [->|Hin]; [congruence|done].
Qed.

Lemma decode_rejects (c : ascii) (src : list ascii) (q : list Z) :
  base64.decodeMap c = None -> base64.is_newline c = false ->
  c <> "="%char -> c ∈ src -> base64.decode src q = None.
Proof.
  intros Hm Hn Hp. revert q.
  induction src as [|c' src IH]; intros q Hin; [by apply elem_of_nil in Hin|].
  cbn [base64.decode].
  apply elem_of_cons in Hin as [<-|Hin].
  { rewrite Hm, Hn. by rewrite (proj2 (Ascii.eqb_neq _ _) Hp). }
  destruct (base64.decodeMap c').
  { destruct (length q =? 3)%nat; [by rewrite IH|by apply IH]. }
  destruct (base64.is_newline c'); [by apply IH|].
  destruct (Ascii.eqb c' "="); [|done].
  pose proof (skip_newlines_keeps c src Hn Hin) as Hk.
  destruct q as [|? [|? [|? [|? ?]]]]; try done.
  - destruct (base64.skip_newlines src) as [|c2 rest2]; [done|].
    destruct (Ascii.eqb_spec c2 "=") as [->|]; [|done].
    apply elem_of_cons in Hk as [?|Hk]; [done|].
    apply (skip_newlines_keeps c rest2 Hn) in Hk.
    by destruct (base64.skip_newlines rest2); [apply elem_of_nil in Hk|].
  - by destruct (base64.skip_newlines src); [apply elem_of_nil in Hk|].
Qed.

(** X15.  A secret with a byte that is neither in the base64 alphabet nor
    a padding sign nor a line end is taken as it is written. *)
Theorem unBase64_keeps_plain_text (s : string) (c : ascii) :
  c ∈ list_ascii_of_string s ->
  base64.decodeMap c = None -> base64.is_newline c = false ->
  c <> "="%char ->
  base64.DecodeString s = None /\ unBase64 s = s.
Proof.
  intros Hin Hm Hn Hp.
  assert (base64.DecodeString s = None) as Hd
      by (by apply (decode_rejects c)).
  split; [done|]. unfold unBase64. by rewrite Hd.
Qed.

(** ** [parseID] *)

Lemma append_cons c (r s : string) : String c r +:+ s = String c (r +:+ s).
Proof. reflexivity. Qed.

Lemma append_assoc (r s t : string) : (r +:+ s) +:+ t = r +:+ (s +:+ t).
Proof.
  induction r as [|c r IH]; [done|]. rewrite !append_cons. by rewrite IH.
Qed.

Lemma digit_of_pretty_N_char (d : N) :
  (d < 10)%N -> strconv.digit_of (pretty_N_char d) = Some (Z.of_N d).
Proof.
  intros Hd.
  assert (d = 0 ∨ d = 1 ∨ d = 2 ∨ d = 3 ∨ d = 4 ∨ d = 5 ∨ d = 6 ∨ d = 7
          ∨ d = 8 ∨ d = 9)%N as Hc by lia.
  repeat destruct Hc as [->|Hc]; try subst d; reflexivity.
Qed.

Lemma digit_of_range c d : strconv.digit_of c = Some d -> 0 <= d <= 9.
Proof.
  unfold strconv.digit_of. cbv zeta.
  destruct (_ && _) eqn:Hb; [|done]. intros [= <-].
  apply andb_true_iff in Hb as [?%Z.leb_le ?%Z.leb_le]. lia.
Qed.

Lemma ParseUint_loop_step n c d rest :
  strconv.digit_of c = Some d -> 0 <= n -> n * 10 + d <= 2 ^ 64 - 1 ->
  strconv.ParseUint_loop n (String c rest)
  = strconv.ParseUint_loop (n * 10 + d) rest.
Proof.
  intros Hc Hn Hfit. pose proof (digit_of_range c d Hc).
  cbn [strconv.ParseUint_loop]. rewrite Hc.
  destruct (Z.leb_spec ((2 ^ 64 - 1) / 10 + 1) n) as [Hle|_].
  { exfalso. revert Hle Hfit. Z.div_mod_to_equations. lia. }
  destruct (Z.ltb_spec (2 ^ 64 - 1) (n * 10 + d)) as [Hlt|_]; [lia|done].
Qed.

(** Reading the digits that [pretty] writes. *)
Lemma ParseUint_loop_pretty (x : N) :
  (0 < x)%N ->
  (exists d rest, (d < 10)%N /\ forall s,
      pretty_N_go x s = String (pretty_N_char d) (rest +:+ s))
  /\ exists k, 0 <= k /\ forall n s,
      0 <= n -> n * 10 ^ k + Z.of_N x <= 2 ^ 64 - 1 ->
      strconv.ParseUint_loop n (pretty_N_go x s)
      = strconv.ParseUint_loop (n * 10 ^ k + Z.of_N x) s.
Proof.
  induction (N.lt_wf_0 x) as [x _ IH]. intros Hx.
  assert (x < 10 ∨ 10 ≤ x)%N as [Hs|Hl] by lia.
  - split.
    + exists x, "". split; [done|]. intros s.
      rewrite pretty_N_go_step by done.
      rewrite N.div_small, N.mod_small by done. by rewrite pretty_N_go_0.
    + exists 1. split; [lia|]. intros n s Hn Hfit.
      rewrite pretty_N_go_step by done.
      rewrite N.div_small, N.mod_small by done. rewrite pretty_N_go_0.
      rewrite (ParseUint_loop_step n _ (Z.of_N x));
        [f_equal; lia|by apply digit_of_pretty_N_char|done|lia].
  - assert (0 < x `div` 10)%N as Hq by (apply N.div_str_pos_iff; lia).
    assert (x `div` 10 < x)%N as Hlt by (apply N.div_lt; lia).
    assert (x `mod` 10 < 10)%N as Hr by (apply N.mod_lt; lia).
    destruct (IH _ Hlt Hq) as [(d & rest & Hd & Hhead) (k & Hk & Hloop)].
    assert (Z.of_N x = Z.of_N (x `div` 10) * 10 + Z.of_N (x `mod` 10)) as Hx10.
    { rewrite (N.div_mod x 10) at 1 by done. lia. }
    split.
    + exists d, (rest +:+ String (pretty_N_char (x `mod` 10)) ""). split; [done|].
      intros s. rewrite pretty_N_go_step by done. rewrite Hhead. f_equal.
      by rewrite append_assoc.
    + exists (k + 1). split; [lia|]. intros n s Hn Hfit.
      rewrite Z.pow_add_r, Z.pow_1_r in Hfit |- * by lia.
      assert (0 <= n * 10 ^ k) as Hnk by (apply Z.mul_nonneg_nonneg; lia).
      rewrite pretty_N_go_step by done. rewrite Hloop by lia.
      rewrite (ParseUint_loop_step _ _ (Z.of_N (x `mod` 10)));
        [f_equal; lia|by apply digit_of_pretty_N_char|lia|lia].
Qed.

Lemma pretty_N_char_no_sign (d : N) :
  Ascii.eqb (pretty_N_char d) "+" = false
  /\ Ascii.eqb (pretty_N_char d) "-" = false.
Proof. unfold pretty_N_char. by repeat case_match. Qed.

Lemma ParseInt_pretty_pos (p : positive) :
  Z.pos p <= 2 ^ 64 - 1 ->
  strconv.ParseUint (pretty (N.pos p)) = inl (Z.pos p)
  /\ exists d rest, pretty (N.pos p) = String (pretty_N_char d) rest.
Proof.
  intros Hfit.
  destruct (ParseUint_loop_pretty (N.pos p)) as [(d & rest & Hd & Hhead)
                                                   (k & Hk & Hloop)]; [lia|].
  unfold pretty, pretty_N. rewrite decide_False by done.
  split; [|by eauto].
  unfold strconv.ParseUint. rewrite (Hhead ""). rewrite <- (Hhead "").
  rewrite Hloop by (cbn; lia). cbn [strconv.ParseUint_loop]. f_equal.
Qed.

Lemma ParseInt_unsigned (s : string) (c : ascii) (rest : string) :
  s = String c rest -> Ascii.eqb c "+" = false -> Ascii.eqb c "-" = false ->
  strconv.ParseInt s
  = match strconv.ParseUint s with
    | inr strconv.ErrSyntax => (0, Some strconv.ErrSyntax)
    | inr strconv.ErrRange => (2 ^ 63 - 1, Some strconv.ErrRange)
    | inl un =>
        if 2 ^ 63 <=? un then (2 ^ 63 - 1, Some strconv.ErrRange)
        else (un, None)
    end.
Proof. intros -> Hp Hm. unfold strconv.ParseInt. by rewrite Hp, Hm. Qed.

Lemma ParseInt_minus (rest : string) :
  strconv.ParseInt ("-" +:+ rest)
  = match strconv.ParseUint rest with
    | inr strconv.ErrSyntax => (0, Some strconv.ErrSyntax)
    | inr strconv.ErrRange => (- 2 ^ 63, Some strconv.ErrRange)
    | inl un =>
        if 2 ^ 63 <? un then (- 2 ^ 63, Some strconv.ErrRange)
        else (- un, None)
    end.
Proof. reflexivity. Qed.

Lemma ParseInt_Itoa (n : Z) :
  goint.in_range n -> strconv.ParseInt (strconv.Itoa n) = (n, None).
Proof.
  unfold goint.in_range, goint.min_int, goint.max_int. intros Hn.
  unfold strconv.Itoa, pretty, pretty_Z. destruct n as [|p|p].
  - reflexivity.
  - destruct (ParseInt_pretty_pos p) as [Hu (d & rest & Hhead)]; [lia|].
    change (pretty p) with (pretty (N.pos p)).
    destruct (pretty_N_char_no_sign d) as [Hp Hm].
    rewrite (ParseInt_unsigned _ _ _ Hhead Hp Hm), Hu.
    destruct (Z.leb_spec (2 ^ 63) (Z.pos p)) as [|_]; [lia|done].
  - destruct (ParseInt_pretty_pos p) as [Hu _]; [lia|].
    change (pretty p) with (pretty (N.pos p)).
    rewrite ParseInt_minus, Hu.
    destruct (Z.ltb_spec (2 ^ 63) (Z.pos p)) as [|_]; [lia|done].
Qed.

Lemma ParseUint_loop_nonneg n s un :
  0 <= n -> strconv.ParseUint_loop n s = inl un -> 0 <= un.
Proof.
  revert n. induction s as [|c s IH]; intros n Hn.
  - cbn. by intros [= <-].
  - cbn [strconv.ParseUint_loop].
    destruct (strconv.digit_of c) as [d|] eqn:Hc; [|done].
    apply digit_of_range in Hc.
    destruct (_ <=? n); [done|]. destruct (_ <? _); [done|].
    apply IH. lia.
Qed.

Lemma ParseUint_nonneg s un : strconv.ParseUint s = inl un -> 0 <= un.
Proof.
  unfold strconv.ParseUint. destruct s; [done|].
  by apply ParseUint_loop_nonneg.
Qed.

(** X16.  The ids that the client prints into its URLs are read back by
    [parseID] as they were, and zero and the negative numbers are
    answered with status 400. *)
Theorem parseID_Itoa (n : Z) :
  goint.in_range n ->
  parseID (strconv.Itoa n)
  = if 1 <=? n then (n, None) else (0, Some StatusBadRequest).
Proof.
  intros Hn. unfold parseID. rewrite ParseInt_Itoa by done.
  destruct (Z.ltb_spec n 1), (Z.leb_spec 1 n); (done || lia).
Qed.

Lemma ParseUint_loop_rejects (c : ascii) (n : Z) (s : string) :
  strconv.digit_of c = None -> c ∈ list_ascii_of_string s ->
  exists e, strconv.ParseUint_loop n s = inr e.
Proof.
  intros Hc. revert n. induction s as [|c' s IH]; intros n Hin.
  - by apply elem_of_nil in Hin.
  - cbn [list_ascii_of_string] in Hin. cbn [strconv.ParseUint_loop].
    apply elem_of_cons in Hin as [<-|Hin]; [rewrite Hc; by eexists|].
    destruct (strconv.digit_of c'); [|by eexists].
    destruct (_ <=? n); [by eexists|]. destruct (_ <? _); [by eexists|].
    by apply IH.
Qed.

Lemma ParseInt_rejects (c : ascii) (s : string) :
  strconv.digit_of c = None -> c <> "+"%char -> c <> "-"%char ->
  c ∈ list_ascii_of_string s ->
  exists v e, strconv.ParseInt s = (v, Some e).
Proof.
  intros Hc Hp Hm Hin. destruct s as [|c' s]; [by apply elem_of_nil in Hin|].
  unfold strconv.ParseInt. cbv zeta.
  set (digits := if Ascii.eqb c' "+" || Ascii.eqb c' "-" then s else String c' s).
  assert (c ∈ list_ascii_of_string digits) as Hd.
  { subst digits. destruct (Ascii.eqb_spec c' "+") as [->|]; cbn [orb].
    - cbn [list_ascii_of_string] in Hin.
      by apply elem_of_cons in Hin as [?|?].
    - destruct (Ascii.eqb_spec c' "-") as [->|]; [|done].
      cbn [list_ascii_of_string] in Hin.
      by apply elem_of_cons in Hin as [?|?]. }
  assert (exists e, strconv.ParseUint digits = inr e) as [e ->].
  { unfold strconv.ParseUint. destruct digits; [by eexists|].
    by apply (ParseUint_loop_rejects c). }
  destruct e; by eexists _, _.
Qed.

(** X17.  [parseID] hands back an id only when it is at least 1 and fits
    an [int64]; in every other case it hands back 0 together with the
    error of a response with status 400.  The empty string, a sign
    without digits and every string with a byte that is neither a digit
    nor a sign are among those cases. *)
Theorem parseID_range (s : string) :
  ((parseID s).2 = None -> 1 <= (parseID s).1 <= goint.max_int)
  /\ ((parseID s).2 <> None -> parseID s = (0, Some StatusBadRequest))
  /\ (s = "" \/ s = "+" \/ s = "-" -> parseID s = (0, Some StatusBadRequest))
  /\ (forall c, c ∈ list_ascii_of_string s -> strconv.digit_of c = None ->
        c <> "+"%char -> c <> "-"%char ->
        parseID s = (0, Some StatusBadRequest)).
Proof.
  split_and!.
  - unfold parseID, strconv.ParseInt, goint.max_int. destruct s as [|c s]; [done|].
    cbv zeta. destruct (strconv.ParseUint _) as [un|[]] eqn:Hu; try done.
    apply ParseUint_nonneg in Hu.
    destruct (Ascii.eqb c "-"); cbn [negb andb orb].
    + destruct (Z.ltb_spec (2 ^ 63) un); [done|].
      destruct (Z.ltb_spec (- un) 1); [done|]. cbn [fst snd]. lia.
    + destruct (Z.leb_spec (2 ^ 63) un); [done|].
      destruct (Z.ltb_spec un 1); [done|]. cbn [fst snd]. lia.
  - unfold parseID. destruct (strconv.ParseInt s) as [id [e|]]; [done|].
    destruct (id <? 1); done.
  - by intros [->|[->| ->]].
  - intros c Hin Hc Hp Hm. unfold parseID.
    by destruct (ParseInt_rejects c s Hc Hp Hm Hin) as (v & e & ->).
Qed.

(** ** [addWhereEq] and [addWhereLike] *)

Section addWhere_facts.

Variable strings_ToLower : string -> string.

Lemma add_condition_unfold (q : string * list any) (c : condition) :
  add_condition strings_ToLower q c
  = ((if String.eqb q.1 "" then " WHERE" else q.1 +:+ " AND")
     +:+ clause_text c (S (length q.2)),
     q.2 ++ [clause_arg strings_ToLower c]).
Proof.
  destruct c as [label value|label value];
    unfold add_condition, addWhereEq, addWhereLike, clause_text, clause_arg;
    cbv zeta; rewrite length_app, Nat.add_1_r; reflexivity.
Qed.

Lemma where_prefix_nonempty (w t : string) :
  String.eqb ((if String.eqb w "" then " WHERE" else w +:+ " AND") +:+ t) ""
  = false.
Proof. by destruct w. Qed.

Lemma clause_texts_lookup (n : nat) (cs : list condition) (i : nat)
    (c : condition) :
  cs !! i = Some c ->
  clause_texts n cs !! i = Some (clause_text c (n + i + 1)).
Proof.
  revert n i. induction cs as [|c' cs IH]; intros n i Hl; [done|].
  change (clause_texts n (c' :: cs))
    with (clause_text c' (S n) :: clause_texts (S n) cs).
  destruct i as [|i].
  - injection Hl as ->. change ((?x :: ?l) !! 0%nat) with (Some x).
    do 2 f_equal. lia.
  - change ((?x :: ?l) !! S i) with (l !! i) in Hl |- *.
    rewrite (IH (S n) i Hl). do 2 f_equal. lia.
Qed.

Lemma fold_add_condition (w : string) (args : list any) (c : condition)
    (cs : list condition) :
  foldl (add_condition strings_ToLower) (w, args) (c :: cs)
  = ((if String.eqb w "" then " WHERE" else w +:+ " AND")
     +:+ String.concat " AND" (clause_texts (length args) (c :: cs)),
     args ++ (clause_arg strings_ToLower <$> (c :: cs))).
Proof.
  revert w args c. induction cs as [|c2 cs IH]; intros w args c.
  - cbn [foldl]. by rewrite add_condition_unfold.
  - change (foldl ?f ?a (c :: c2 :: cs)) with (foldl f (f a c) (c2 :: cs)).
    rewrite add_condition_unfold. cbn [fst snd]. rewrite IH.
    rewrite where_prefix_nonempty, length_app, Nat.add_1_r.
    f_equal.
    + change (String.concat " AND" (clause_texts (length args) (c :: c2 :: cs)))
        with (clause_text c (S (length args)) +:+ " AND"
              +:+ String.concat " AND" (clause_texts (S (length args)) (c2 :: cs))).
      by rewrite !append_assoc.
    + rewrite <- app_assoc. reflexivity.
Qed.

(** X18.  However calls of [addWhereEq] and [addWhereLike] are mixed, the
    query they build from an empty condition is [" WHERE"] followed by
    the conditions joined with [" AND"]; the arguments come after those
    the query had, in the order of the calls, and the number after the
    [$] in each condition is the place of its argument, counted from 1. *)
Theorem addWhere_numbering (args : list any) (c : condition)
    (cs : list condition) :
  let q := foldl (add_condition strings_ToLower) ("", args) (c :: cs) in
  q.1 = " WHERE" +:+ String.concat " AND" (clause_texts (length args) (c :: cs))
  /\ q.2 = args ++ (clause_arg strings_ToLower <$> (c :: cs))
  /\ forall (i : nat) (c' : condition),
       (c :: cs) !! i = Some c' ->
       clause_texts (length args) (c :: cs) !! i
       = Some (clause_text c' (length args + i + 1))
       /\ q.2 !! (length args + i)%nat = Some (clause_arg strings_ToLower c').
Proof.
  cbv zeta. rewrite fold_add_condition. cbn [fst snd]. split_and!; [done..|].
  intros i c' Hl. split; [by apply clause_texts_lookup|].
  rewrite lookup_app_r by lia.
  replace (length args + i - length args)%nat with i by lia.
  by rewrite list_lookup_fmap, Hl.
Qed.

End addWhere_facts.

(** ** The registration loop *)

Lemma status_after_snoc (url : string) (rs : list reply) (r : reply) :
  status_after url (rs ++ [r])
  = if registered r then "succeeded" else "failed".
Proof.
  unfold status_after. rewrite foldl_app. cbn [foldl].
  destruct r as [err|code st body]; [done|].
  unfold register_round, registered. by destruct (code =? StatusOK).
Qed.

(** X19.  The loop with which a daycare registers reports only changes:
    a round logs nothing exactly when it is not the first and it ends as
    the round before it did, both registered or both not. *)
Theorem register_round_logs_changes (url : string) (rs : list reply)
    (r : reply) :
  (register_round url (status_after url rs) r).2 = []
  <-> exists r', last rs = Some r' /\ registered r' = registered r.
Proof.
  destruct rs as [|r0 rs0] using rev_ind.
  - split; [|by intros (r' & [=] & _)].
    change (status_after url []) with "".
    destruct r as [err|code st body]; [done|].
    unfold register_round. by destruct (code =? StatusOK).
  - rewrite status_after_snoc, last_snoc. split.
    + intros Hlog. exists r0. split; [done|].
      destruct r as [err|code st body]; cbn [registered register_round] in *;
        destruct (registered r0); try done;
        destruct (code =? StatusOK); done.
    + intros (r' & [= <-] & Hr).
      destruct r as [err|code st body]; cbn [registered register_round] in *;
        rewrite Hr; [done|].
      by destruct (code =? StatusOK).
Qed.

(** ** The handlers of [/v2/daycare_registrations] *)

(** X20.  A POST drops the stale registrations whether or not it accepts
    the one it carries: apart from the host that registers, the registry
    afterwards holds the entries it held that are not stale, and a
    refused registration leaves its own host's entry to that rule too. *)
Theorem Post_expires_first (secret : string) (now now1 now2 : time.Time)
    (order : iteration) (reg : DaycareRegistration) (m : daycares)
    (host : string) :
  order ≡ₚ map_to_list m ->
  let r := PostDaycareRegistrations secret now order now1 now2 reg m in
  (r.1 = None -> r.2 !! Hostname reg = Some (stored now2 reg))
  /\ (host <> Hostname reg \/ r.1 <> None ->
      r.2 !! host = match m !! host with
                    | Some elt => if decide (stale now elt) then None
                                  else Some elt
                    | None => None
                    end).
Proof.
  intros Hord. cbv zeta. unfold PostDaycareRegistrations. cbv zeta.
  pose proof (Expire_lookup_stale now order m host Hord) as He.
  destruct (Insert_cases secret now1 now2 reg (Expire now order m))
    as [->|[e ->]]; cbn [fst snd].
  - split; [intros _; apply lookup_insert_eq|].
    intros [Hne|Hne]; [|done]. by rewrite lookup_insert_ne.
  - split; [done|]. by intros _.
Qed.

(** * Part VI: the further properties at the sample inputs *)

Lemma reachable_entries_witness :
  let reg := stored sample.later (new_registration sample.cfg sample.t0) in
  Hostname reg = "a.example.org"
  /\ Sorted string_le (ProblemTypes reg)
  /\ Version reg = "" /\ Signature reg = "".
Proof.
  cbv zeta.
  apply (reachable_entries
           (Insert sample.secret sample.t0 sample.later
              (new_registration sample.cfg sample.t0) ∅).2 "a.example.org").
  - apply reachable_Insert, reachable_init.
  - vm_compute. reflexivity.
Defined.

Lemma daycare_registration_accepted_witness :
  Z.abs (sample.t0 - (sample.t0 - 30 * time.Second)) <= 60 * time.Second
  /\ (Insert sample.secret sample.t0 sample.later
        (new_registration sample.cfg (sample.t0 - 30 * time.Second))
        sample.aged).1.1 = None.
Proof.
  assert (Z.abs (sample.t0 - (sample.t0 - 30 * time.Second))
          <= 60 * time.Second) as Hd by (vm_compute; discriminate).
  split; [exact Hd|].
  pose proof (daycare_registration_accepted sample.cfg
                (sample.t0 - 30 * time.Second) sample.t0 sample.later
                sample.aged Hd) as Hins.
  change (Config.DaycareSecret sample.cfg) with sample.secret in Hins.
  rewrite Hins. reflexivity.
Defined.

Lemma Insert_replaces_witness :
  let r1 := new_registration sample.cfg sample.t0 in
  let r2 := new_registration sample.cfg sample.later in
  let m1 := <[Hostname r1 := stored sample.t0 r1]> sample.aged in
  let m2 := <[Hostname r2 := stored sample.later r2]> m1 in
  m2 = (Insert sample.secret sample.later sample.later r2 sample.aged).2
  /\ m2 !! Hostname r2 = Some (stored sample.later r2)
  /\ dom m2 = {[Hostname r2]} ∪ dom sample.aged.
Proof.
  cbv zeta.
  apply (Insert_replaces sample.secret sample.t0 sample.t0 sample.later
           sample.later (new_registration sample.cfg sample.t0)
           (new_registration sample.cfg sample.later)
           (stored sample.t0 (new_registration sample.cfg sample.t0))
           (stored sample.later (new_registration sample.cfg sample.later))
           sample.aged
           (<[Hostname (new_registration sample.cfg sample.t0) :=
                stored sample.t0 (new_registration sample.cfg sample.t0)]>
              sample.aged)).
  - apply Insert_accepts.
    split; [apply new_registration_signed|]. split; [reflexivity|].
    vm_compute. discriminate.
  - apply Insert_accepts.
    split; [apply new_registration_signed|]. split; [reflexivity|].
    vm_compute. discriminate.
  - vm_compute. reflexivity.
Defined.

Lemma Expire_Expire_witness :
  Expire sample.later
    (map_to_list (Expire sample.t0 (map_to_list sample.aged) sample.aged))
    (Expire sample.t0 (map_to_list sample.aged) sample.aged)
  = Expire sample.later (map_to_list sample.aged) sample.aged.
Proof.
  apply Expire_Expire; [reflexivity..|]. vm_compute. discriminate.
Defined.

Lemma Insert_then_Expire_witness :
  let r := Insert sample.secret sample.t0 sample.later
             (new_registration sample.cfg sample.t0) sample.aged in
  Expire (sample.later + 20 * time.Second) (map_to_list r.2) r.2
    !! "a.example.org" = Some r.1.2
  /\ Time r.1.2 = sample.later.
Proof.
  cbv zeta.
  apply (Insert_then_Expire sample.secret sample.t0 sample.later
           (sample.later + 20 * time.Second)
           (new_registration sample.cfg sample.t0) _ sample.aged).
  - vm_compute. reflexivity.
  - reflexivity.
  - vm_compute. discriminate.
Defined.

Lemma Assign_sound_witness :
  exists reg, sample.skewed !! "B" = Some reg
              /\ "gounittest" ∈ ProblemTypes reg.
Proof.
  apply (Assign_sound sample.skewed (map_to_list sample.skewed)
           (map_to_list sample.skewed) 3 "gounittest" "B").
  - reflexivity.
  - vm_compute. discriminate.
  - vm_compute. reflexivity.
Defined.

Lemma sole_daycare_assigned_witness :
  Assign
    (map_to_list (Insert sample.secret sample.t0 sample.later
                    (new_registration sample.cfg sample.t0) ∅).2)
    (map_to_list (Insert sample.secret sample.t0 sample.later
                    (new_registration sample.cfg sample.t0) ∅).2)
    2 "gotest"
  = Return ("a.example.org", None).
Proof.
  apply (sole_daycare_assigned sample.cfg sample.t0 sample.t0 sample.later).
  - split; vm_compute; [discriminate|reflexivity].
  - vm_compute. discriminate.
  - apply (bool_decide_unpack _). vm_compute. exact I.
  - vm_compute. discriminate.
  - reflexivity.
  - reflexivity.
  - split; vm_compute; [discriminate|reflexivity].
Defined.

Lemma Insert_reports_first_failure_witness :
  (Insert sample.secret sample.t0 sample.t0
     (sample.host "b.example.org" ["gotest"] 3 sample.t0) ∅).1.1
  = Some ("signature mismatch: computed "
          +:+ (ComputeSignature sample.secret
                 (sample.host "b.example.org" ["gotest"] 3 sample.t0)).1
          +:+ " but found ").
Proof.
  destruct (Insert_reports_first_failure sample.secret sample.t0 sample.t0
              (sample.host "b.example.org" ["gotest"] 3 sample.t0) ∅)
    as [Hsig _].
  - vm_compute. reflexivity.
  - apply Hsig. vm_compute. discriminate.
Defined.

Lemma Assign_total_order_independent_witness :
  totalWeight "gounittest" (map_to_list sample.skewed)
  = totalWeight "gounittest" (reverse (map_to_list sample.skewed)).
Proof.
  destruct (Assign_total_order_independent (map_to_list sample.skewed)
              (reverse (map_to_list sample.skewed))
              (map_to_list sample.skewed) (map_to_list sample.skewed)
              0 "gounittest") as [Ht _].
  - symmetry. apply reverse_Permutation.
  - exact Ht.
Defined.


Lemma CommandGrade_advance_frame_witness :
  let r := CommandGrade sample.Join "hw" sample.problem sample.passed_commit
             sample.dotfile (Some sample.new_step) (Some sample.old_step)
             (map_to_list (ProblemStep.Files sample.old_step))
             (map_to_list (ProblemStep.Files sample.new_step)) sample.disk in
  fs r.2 !! "hw/sum.py" = Some (Bytes "def sum(): pass")
  /\ fs r.2 !! "hw/tests/test_2.py" = None.
Proof.
  cbv zeta. split.
  - rewrite (CommandGrade_advance_frame sample.Join "hw" sample.problem
               sample.passed_commit sample.dotfile sample.new_step
               sample.old_step sample.info).
    + vm_compute. reflexivity.
    + vm_compute. reflexivity.
    + vm_compute. reflexivity.
    + vm_compute. split; [by eexists|exact I].
    + discriminate.
    + apply (bool_decide_unpack _). vm_compute. exact I.
  - rewrite (CommandGrade_advance_frame sample.Join "hw" sample.problem
               sample.passed_commit sample.dotfile sample.new_step
               sample.old_step sample.info).
    + vm_compute. reflexivity.
    + vm_compute. reflexivity.
    + vm_compute. reflexivity.
    + vm_compute. split; [by eexists|exact I].
    + discriminate.
    + apply (bool_decide_unpack _). vm_compute. exact I.
Defined.

Lemma CommandGrade_missing_file_witness :
  let w := set_fs (delete "hw/tests/test_2.py" (fs sample.disk)) sample.disk in
  let r := CommandGrade sample.Join "hw" sample.problem sample.passed_commit
             sample.dotfile (Some sample.new_step) (Some sample.old_step)
             (map_to_list (ProblemStep.Files sample.old_step))
             (map_to_list (ProblemStep.Files sample.new_step)) w in
  r.1 = Exited
  /\ (fs r.2 !! "hw/doc.md" = None \/ fs r.2 !! "hw/doc.md" = fs w !! "hw/doc.md").
Proof.
  cbv zeta.
  apply (CommandGrade_missing_file sample.Join "hw" sample.problem
           sample.passed_commit sample.dotfile sample.new_step sample.old_step).
  - vm_compute. reflexivity.
  - vm_compute. intros [[x Hx] _]. discriminate Hx.
Defined.

Lemma unBase64_keeps_plain_text_witness :
  base64.DecodeString "my secret" = None /\ unBase64 "my secret" = "my secret".
Proof.
  apply (unBase64_keeps_plain_text "my secret" " "%char).
  - apply (bool_decide_unpack _). vm_compute. exact I.
  - reflexivity.
  - reflexivity.
  - discriminate.
Defined.

Lemma parseID_Itoa_witness : parseID (strconv.Itoa 17) = (17, None).
Proof.
  apply (parseID_Itoa 17). split; vm_compute; discriminate.
Defined.

Lemma Post_expires_first_witness :
  let r := PostDaycareRegistrations sample.secret sample.later
             (map_to_list sample.aged) sample.later sample.later
             (new_registration sample.cfg sample.later) sample.aged in
  r.2 !! "a.example.org"
  = Some (stored sample.later (new_registration sample.cfg sample.later))
  /\ r.2 !! "A" = None.
Proof.
  cbv zeta.
  destruct (Post_expires_first sample.secret sample.later sample.later
              sample.later (map_to_list sample.aged)
              (new_registration sample.cfg sample.later) sample.aged "A")
    as [Hnew Hold]; [reflexivity|].
  split.
  - apply Hnew. vm_compute. reflexivity.
  - rewrite Hold; [vm_compute; reflexivity|]. left. vm_compute. discriminate.
Defined.
